(** * kubeconfig-wrangler: configuration validation, identifier rewriting
    and merging of kubeconfig documents.

    Shallow embedding of [pkg/config/config.go] (packages [config] and
    [kubeconfig]).  Go strings are byte strings ([string]); Go maps keyed by
    strings are finite maps ([gmap string _]); a [for ... range] loop over a
    map is a left fold over the entries in the order the runtime yields
    them. *)

From Stdlib Require Import Ascii.
From stdpp Require Import gmap strings list fin_maps pretty.

(** ** Go runtime pieces shared by both packages *)

(** A Go function returning [(T, error)]: either the value with a nil error,
    or the error (the value is then nil and never inspected). *)
Inductive result (A : Type) : Type :=
  | Ok (a : A)
  | Err (msg : string).
Arguments Ok {A} a.
Arguments Err {A} msg.

Definition is_Ok {A} (r : result A) : Prop :=
  match r with Ok _ => True | Err _ => False end.

Definition is_Err {A} (r : result A) : Prop :=
  match r with Ok _ => False | Err _ => True end.

(** [for k, v := range m { acc = body acc k v }] over the entries in the
    order [entries] in which the runtime yields them. *)
Definition range {A B} (body : B → string → A → B)
    (entries : list (string * A)) (init : B) : B :=
  foldl (λ acc kv, body acc kv.1 kv.2) init entries.

(** [m[k] = v] performed for every yielded entry, with the key and the value
    computed by [fk] and [fv]. *)
Definition range_assign {A B} (fk : string → string) (fv : A → B)
    (entries : list (string * A)) (init : gmap string B) : gmap string B :=
  range (λ acc k v, <[fk k := fv v]> acc) entries init.

(** The orders in which [range] may visit the entries of a map. *)
Definition iteration_of {A} (m : gmap string A)
    (order : list (string * A)) : Prop :=
  order ≡ₚ map_to_list m.

(** ** Package strings of the Go library, as far as [Validate] uses it *)
Module strings.

(** [strings.HasSuffix]. *)
Definition HasSuffix (s suffix : string) : bool :=
  bool_decide (String.length suffix ≤ String.length s)
  && bool_decide
       (String.substring (String.length s - String.length suffix)
          (String.length suffix) s = suffix).

(** [strings.TrimSuffix]: at most one copy of the suffix is removed. *)
Definition TrimSuffix (s suffix : string) : string :=
  if HasSuffix s suffix
  then String.substring 0 (String.length s - String.length suffix) s
  else s.

(** The text before and after the first occurrence of the byte [sep], if
    there is one. *)
Fixpoint Cut (s : string) (sep : ascii) : option (string * string) :=
  match s with
  | EmptyString => None
  | String c rest =>
      if bool_decide (c = sep) then Some (EmptyString, rest)
      else match Cut rest sep with
           | Some (before, after) => Some (String c before, after)
           | None => None
           end
  end.

(** [strings.SplitN s sep n] for a one-byte separator and [n >= 0]: at
    most [n] pieces, the last one holding the unsplit remainder. *)
Fixpoint SplitN (s : string) (sep : ascii) (n : nat) : list string :=
  match n with
  | 0 => []
  | S n' =>
      match n' with
      | 0 => [s]
      | S _ =>
          match Cut s sep with
          | Some (before, after) => before :: SplitN after sep n'
          | None => [s]
          end
      end
  end.

(** [strings.Split s sep]: split at every separator. *)
Definition Split (s : string) (sep : ascii) : list string :=
  SplitN s sep (S (String.length s)).

(** The bytes of a string. *)
Definition bytes (s : string) : list ascii := String.list_ascii_of_string s.

End strings.

(** ** Package config *)
Module config.

Record Config := mkConfig {
  RancherURL : string;
  AccessKey : string;
  SecretKey : string;
  Token : string;
  ClusterPrefix : string;
  OutputPath : string;
  InsecureSkipTLSVerify : bool;
  CACert : string
}.

Definition set_RancherURL (c : Config) (v : string) : Config :=
  {| RancherURL := v; AccessKey := AccessKey c; SecretKey := SecretKey c;
     Token := Token c; ClusterPrefix := ClusterPrefix c;
     OutputPath := OutputPath c;
     InsecureSkipTLSVerify := InsecureSkipTLSVerify c;
     CACert := CACert c |}.

Definition set_keys (c : Config) (access secret : string) : Config :=
  {| RancherURL := RancherURL c; AccessKey := access; SecretKey := secret;
     Token := Token c; ClusterPrefix := ClusterPrefix c;
     OutputPath := OutputPath c;
     InsecureSkipTLSVerify := InsecureSkipTLSVerify c;
     CACert := CACert c |}.

Definition colon : ascii := ":"%char.

(** [Validate] works on a pointer: the result is the configuration as the
    call leaves it, and the error ([None] for nil). *)
Definition Validate (c : Config) : Config * option string :=
  if bool_decide (RancherURL c = "") then
    (c, Some "rancher URL is required")
  else
    let c := set_RancherURL c (strings.TrimSuffix (RancherURL c) "/") in
    if bool_decide (Token c = "")
       && (bool_decide (AccessKey c = "") || bool_decide (SecretKey c = ""))
    then (c, Some "either token or access_key/secret_key pair is required")
    else if bool_decide (Token c ≠ "") then
      let parts := strings.SplitN (Token c) colon 2 in
      if bool_decide (length parts ≠ 2) then
        (c, Some "invalid token format, expected 'access_key:secret_key'")
      else
        (set_keys c (default "" (parts !! 0)) (default "" (parts !! 1)),
         None)
    else (c, None).

(** [GetBasicAuth]. *)
Definition GetBasicAuth (c : Config) : string * string :=
  (AccessKey c, SecretKey c).

(** The token format as the specification words it: exactly two
    non-empty parts around a single separator. *)
Definition spec_token_well_formed (token : string) : Prop :=
  match strings.Split token colon with
  | [access; secret] => access ≠ "" ∧ secret ≠ ""
  | _ => False
  end.

End config.

(** ** k8s.io/client-go/tools/clientcmd/api: the document model *)
Module api.

Record Cluster := mkCluster {
  Server : string;
  InsecureSkipTLSVerify : bool;
  CertificateAuthorityData : string
}.

Record AuthInfo := mkAuthInfo {
  ClientCertificateData : string;
  ClientKeyData : string;
  Token : string
}.

(** The fields [Cluster] and [AuthInfo] of a context are the names of the
    entries it refers to. *)
Record Context := mkContext {
  Context_Cluster : string;
  Context_AuthInfo : string;
  Namespace : string
}.

Record Preferences := mkPreferences {
  Colors : bool
}.

Record Config := mkConfig {
  Kind : string;
  APIVersion : string;
  Preferences_ : Preferences;
  Clusters : gmap string Cluster;
  AuthInfos : gmap string AuthInfo;
  Contexts : gmap string Context;
  CurrentContext : string;
  Extensions : gmap string string
}.

(** [api.NewConfig()]: empty maps, default preferences, no current
    context. *)
Definition NewConfig : Config :=
  {| Kind := ""; APIVersion := "";
     Preferences_ := {| Colors := false |};
     Clusters := ∅; AuthInfos := ∅; Contexts := ∅;
     CurrentContext := ""; Extensions := ∅ |}.

(** A reference is in order when it is empty or names an entry. *)
Definition resolves {A} (m : gmap string A) (ref : string) : Prop :=
  ref = "" ∨ is_Some (m !! ref).

(** Referential integrity of a document. *)
Definition valid (c : Config) : Prop :=
  map_Forall (λ _ ctx,
      resolves (Clusters c) (Context_Cluster ctx)
      ∧ resolves (AuthInfos c) (Context_AuthInfo ctx))
    (Contexts c).

#[export] Instance resolves_dec {A} (m : gmap string A) ref :
  Decision (resolves m ref).
Proof. unfold resolves. apply _. Defined.

#[export] Instance valid_dec c : Decision (valid c).
Proof. unfold valid. apply _. Defined.

End api.

(** ** Package kubeconfig *)
Module kubeconfig.
Import api.

Record Generator := mkGenerator { prefix : string }.

Definition NewGenerator (prefix : string) : Generator :=
  {| prefix := prefix |}.

(** The two-case renaming rule in the words of the specification: the
    cluster's own name gives [p + own], any other name [n] gives
    [p + n]. *)
Definition spec_rename (p own n : string) : string :=
  if decide (n = own) then p +:+ own else p +:+ n.

Section Generator.
(** [clientcmd.Load], the decoder of the client library. *)
Variable Load : string → result Config.

Definition ParseKubeconfig (g : Generator) (data : string)
    : result Config :=
  match Load data with
  | Err err => Err ("failed to parse kubeconfig: " +:+ err)
  | Ok config => Ok config
  end.

(** The name given to a cluster or context entry called [name]. *)
Definition newName (g : Generator) (clusterName name : string) : string :=
  let prefixedName := prefix g +:+ clusterName in
  if bool_decide (name ≠ clusterName) then prefix g +:+ name
  else prefixedName.

(** The copy of a context with its two references updated; [clusters]
    is the cluster map of the document the context comes from. *)
Definition newContext (g : Generator) (clusters : gmap string Cluster)
    (clusterName : string) (context : Context) : Context :=
  let prefixedName := prefix g +:+ clusterName in
  let cluster :=
    match clusters !! Context_Cluster context with
    | Some _ =>
        if bool_decide (Context_Cluster context = clusterName)
        then prefixedName
        else prefix g +:+ Context_Cluster context
    | None => Context_Cluster context
    end in
  let authInfo :=
    if bool_decide (Context_AuthInfo context ≠ "")
    then prefix g +:+ Context_AuthInfo context
    else Context_AuthInfo context in
  {| Context_Cluster := cluster;
     Context_AuthInfo := authInfo;
     Namespace := Namespace context |}.

Definition newCurrentContext (g : Generator)
    (clusterName current : string) : string :=
  let prefixedName := prefix g +:+ clusterName in
  if bool_decide (current ≠ "") then
    if bool_decide (current = clusterName) then prefixedName
    else prefix g +:+ current
  else current.

Definition ApplyPrefix (g : Generator) (config : Config)
    (clusterName : string) : Config :=
  if bool_decide (prefix g = "") then config
  else
    let newClusters :=
      range_assign (newName g clusterName) id
        (map_to_list (Clusters config)) ∅ in
    let newAuthInfos :=
      range_assign (λ name, prefix g +:+ name) id
        (map_to_list (AuthInfos config)) ∅ in
    let newContexts :=
      range_assign (newName g clusterName)
        (newContext g (Clusters config) clusterName)
        (map_to_list (Contexts config)) ∅ in
    {| Kind := Kind config;
       APIVersion := APIVersion config;
       Clusters := newClusters;
       Contexts := newContexts;
       AuthInfos := newAuthInfos;
       CurrentContext :=
         newCurrentContext g clusterName (CurrentContext config);
       Preferences_ := Preferences_ config;
       Extensions := Extensions config |}.

(** The three copy loops at the end of one iteration of
    [MergeConfigs]. *)
Definition mergeInto (mergedConfig prefixedConfig : Config) : Config :=
  {| Kind := Kind mergedConfig;
     APIVersion := APIVersion mergedConfig;
     Preferences_ := Preferences_ mergedConfig;
     Clusters :=
       range_assign id id (map_to_list (Clusters prefixedConfig))
         (Clusters mergedConfig);
     Contexts :=
       range_assign id id (map_to_list (Contexts prefixedConfig))
         (Contexts mergedConfig);
     AuthInfos :=
       range_assign id id (map_to_list (AuthInfos prefixedConfig))
         (AuthInfos mergedConfig);
     CurrentContext := CurrentContext mergedConfig;
     Extensions := Extensions mergedConfig |}.

(** The loop of [MergeConfigs] over the entries of [clusterKubeconfigs]
    in the order [order]; a document that fails to parse ends the loop
    with the error. *)
Fixpoint mergeLoop (g : Generator) (order : list (string * string))
    (mergedConfig : Config) : result Config :=
  match order with
  | [] => Ok mergedConfig
  | (clusterName, kubeconfigData) :: rest =>
      match ParseKubeconfig g kubeconfigData with
      | Err err =>
          Err ("failed to parse kubeconfig for cluster " +:+ clusterName
               +:+ ": " +:+ err)
      | Ok config =>
          let prefixedConfig := ApplyPrefix g config clusterName in
          mergeLoop g rest (mergeInto mergedConfig prefixedConfig)
      end
  end.

(** [MergeConfigs] when the runtime ranges over [clusterKubeconfigs] in
    the order [order]. *)
Definition MergeConfigs (g : Generator) (order : list (string * string))
    : result Config :=
  mergeLoop g order NewConfig.

(** The results [MergeConfigs] can return on the map
    [clusterKubeconfigs]. *)
Definition MergeConfigs_returns (g : Generator)
    (clusterKubeconfigs : gmap string string) (r : result Config) : Prop :=
  ∃ order, iteration_of clusterKubeconfigs order
           ∧ MergeConfigs g order = r.


(** One iteration of the loop up to the prefixed document: parse, then
    apply the prefix. *)
Definition prefixedConfig (g : Generator) (entry : string * string)
    : result Config :=
  match ParseKubeconfig g entry.2 with
  | Err err =>
      Err ("failed to parse kubeconfig for cluster " +:+ entry.1
           +:+ ": " +:+ err)
  | Ok config => Ok (ApplyPrefix g config entry.1)
  end.

(** The prefixed documents of all entries in processing order, or the
    error of the first entry that fails to parse. *)
Fixpoint prefixedConfigs (g : Generator) (order : list (string * string))
    : result (list Config) :=
  match order with
  | [] => Ok []
  | entry :: rest =>
      match prefixedConfig g entry with
      | Err err => Err err
      | Ok doc =>
          match prefixedConfigs g rest with
          | Err err => Err err
          | Ok docs => Ok (doc :: docs)
          end
      end
  end.

End Generator.

Section Generate.
(** [clientcmd.Load] and [clientcmd.Write], the decoder and the encoder of
    the client library. *)
Variable Load : string → result Config.
Variable Write : Config → result string.

Definition Serialize (g : Generator) (config : Config) : result string :=
  match Write config with
  | Err err => Err ("failed to serialize kubeconfig: " +:+ err)
  | Ok data => Ok data
  end.

(** [Generate] when the runtime ranges over [clusterKubeconfigs] in the
    order [order]. *)
Definition Generate (g : Generator) (order : list (string * string))
    : result string :=
  match MergeConfigs Load g order with
  | Err err => Err err
  | Ok mergedConfig => Serialize g mergedConfig
  end.
End Generate.

(** The value that the last document defining [k] gives it, among
    documents listed in processing order; [sel] picks one of the three
    maps. *)
Definition lastWrite {A} (sel : Config → gmap string A)
    (docs : list Config) (k : string) : option A :=
  foldl (λ found doc,
           match sel doc !! k with Some v => Some v | None => found end)
    None docs.

(** Two documents share no name in any of the three maps. *)
Definition disjointDocs (d1 d2 : Config) : Prop :=
  Clusters d1 ##ₘ Clusters d2
  ∧ AuthInfos d1 ##ₘ AuthInfos d2
  ∧ Contexts d1 ##ₘ Contexts d2.

(** A collision warning as the specification describes it: the colliding
    key and the names of the two source clusters. *)
Record CollisionWarning := mkCollisionWarning {
  key : string;
  earlierSource : string;
  laterSource : string
}.

End kubeconfig.

(** ** Package rancher *)
Module rancher.

Record Cluster := mkCluster {
  ID : string;
  Name : string;
  Description : string;
  State : string;
  Provider : string;
  Links_Self : string;
  Links_GenerateKubeconfig : string;
  Actions_GenerateKubeconfig : string
}.

(** An HTTP request as [doRequest] sends it: method, URL, body, the
    credentials given to [SetBasicAuth] and the headers set. *)
Record Request := mkRequest {
  Method : string;
  URL : string;
  Body : option string;
  BasicAuth : string * string;
  Header : list (string * string)
}.

(** The status code and the body of an HTTP response. *)
Record Response := mkResponse {
  StatusCode : Z;
  ResponseBody : string
}.

(** What the client has done to the outside: the requests handed to the
    HTTP client, oldest first, and the lines written to the standard error
    stream. *)
Record World := mkWorld {
  sent : list Request;
  stderr : list string
}.

Record Client := mkClient {
  config : config.Config
}.

Definition newline : string := String (ascii_of_nat 10) EmptyString.

Section Client.
(** The error [http.NewRequest] reports for a method and a URL, if any. *)
Variable NewRequest_error : string → string → option string.
(** [httpClient.Do]: what comes back for a request, given the requests
    sent before it. *)
Variable Do : list Request → Request → result Response.
(** Decoding a response body into a [ClusterCollection] (its [Data]) and
    into a [KubeconfigResponse] (its [Config]). *)
Variable decodeClusterCollection : string → result (list Cluster).
Variable decodeKubeconfigResponse : string → result string.

(** The request [doRequest] builds for a method, a URL and a body. *)
Definition authenticated (c : Client) (method url : string)
    (body : option string) : Request :=
  let '(username, password) := config.GetBasicAuth (config c) in
  {| Method := method; URL := url; Body := body;
     BasicAuth := (username, password);
     Header := [("Content-Type", "application/json");
                ("Accept", "application/json")] |}.

Definition doRequest (c : Client) (method url : string)
    (body : option string) (w : World) : result Response * World :=
  match NewRequest_error method url with
  | Some err => (Err ("failed to create request: " +:+ err), w)
  | None =>
      let req := authenticated c method url body in
      let w' := {| sent := sent w ++ [req]; stderr := stderr w |} in
      match Do (sent w) req with
      | Err err => (Err ("request failed: " +:+ err), w')
      | Ok resp => (Ok resp, w')
      end
  end.

Definition ListClusters (c : Client) (w : World)
    : result (list Cluster) * World :=
  let url := config.RancherURL (config c) +:+ "/v3/clusters" in
  match doRequest c "GET" url None w with
  | (Err err, w') => (Err err, w')
  | (Ok resp, w') =>
      if bool_decide (StatusCode resp ≠ 200%Z) then
        (Err ("failed to list clusters: status " +:+ pretty (StatusCode resp)
              +:+ ", body: " +:+ ResponseBody resp), w')
      else
        match decodeClusterCollection (ResponseBody resp) with
        | Err err =>
            (Err ("failed to decode clusters response: " +:+ err), w')
        | Ok data => (Ok data, w')
        end
  end.

(** The URL [GetClusterKubeconfig] posts to: the action URL of the
    cluster, or the one built from the server address and the cluster
    identifier when the cluster has none. *)
Definition kubeconfigURL (c : Client) (cluster : Cluster) : string :=
  let url := Actions_GenerateKubeconfig cluster in
  if bool_decide (url = "") then
    config.RancherURL (config c) +:+ "/v3/clusters/" +:+ ID cluster
    +:+ "?action=generateKubeconfig"
  else url.

Definition GetClusterKubeconfig (c : Client) (cluster : Cluster) (w : World)
    : result string * World :=
  let url := kubeconfigURL c cluster in
  match doRequest c "POST" url None w with
  | (Err err, w') => (Err err, w')
  | (Ok resp, w') =>
      if bool_decide (StatusCode resp ≠ 200%Z) then
        (Err ("failed to get kubeconfig for cluster " +:+ Name cluster
              +:+ ": status " +:+ pretty (StatusCode resp)
              +:+ ", body: " +:+ ResponseBody resp), w')
      else
        match decodeKubeconfigResponse (ResponseBody resp) with
        | Err err =>
            (Err ("failed to decode kubeconfig response: " +:+ err), w')
        | Ok kubeconfig => (Ok kubeconfig, w')
        end
  end.

(** The loop of [GetAllKubeconfigs] over the listed clusters. *)
Fixpoint collectKubeconfigs (c : Client) (clusters : list Cluster)
    (kubeconfigs : gmap string string) (w : World)
    : gmap string string * World :=
  match clusters with
  | [] => (kubeconfigs, w)
  | cluster :: rest =>
      if bool_decide (State cluster ≠ "active") then
        collectKubeconfigs c rest kubeconfigs w
      else
        match GetClusterKubeconfig c cluster w with
        | (Err err, w') =>
            let warning :=
              "Warning: failed to get kubeconfig for cluster "
              +:+ Name cluster +:+ ": " +:+ err +:+ newline in
            collectKubeconfigs c rest kubeconfigs
              {| sent := sent w'; stderr := stderr w' ++ [warning] |}
        | (Ok kubeconfig, w') =>
            collectKubeconfigs c rest
              (<[Name cluster := kubeconfig]> kubeconfigs) w'
        end
  end.

Definition GetAllKubeconfigs (c : Client) (w : World)
    : result (gmap string string) * World :=
  match ListClusters c w with
  | (Err err, w') => (Err err, w')
  | (Ok clusters, w') =>
      let '(kubeconfigs, w'') := collectKubeconfigs c clusters ∅ w' in
      (Ok kubeconfigs, w'')
  end.

(** The clusters [GetAllKubeconfigs] asks for a kubeconfig. *)
Definition active (cluster : Cluster) : Prop := State cluster = "active".

(** The requests that a call of [doRequest] without body hands to the HTTP
    client: none when the request cannot be built. *)
Definition attempt (c : Client) (method url : string) : list Request :=
  match NewRequest_error method url with
  | None => [authenticated c method url None]
  | Some _ => []
  end.

(** The clusters for which a request is handed to the HTTP client. *)
Definition contacted (c : Client) (cluster : Cluster) : Prop :=
  State cluster = "active"
  ∧ NewRequest_error "POST" (kubeconfigURL c cluster) = None.

#[export] Instance active_dec cluster : Decision (active cluster).
Proof. unfold active. apply _. Defined.

#[export] Instance contacted_dec c cluster : Decision (contacted c cluster).
Proof. unfold contacted. apply _. Defined.

End Client.
End rancher.

(** ** Sample documents *)
Module examples.
Import api kubeconfig.

(** The document of a cluster "c1": one cluster entry, one user and one
    context, all wired together, the context being current. *)
Definition docC1 : Config :=
  {| Kind := "Config"; APIVersion := "v1";
     Preferences_ := {| Colors := false |};
     Clusters := {[ "c1" := mkCluster "https://c1.example" false "" ]};
     AuthInfos := {[ "u1" := mkAuthInfo "" "" "token-c1" ]};
     Contexts := {[ "c1" := mkContext "c1" "u1" "" ]};
     CurrentContext := "c1"; Extensions := ∅ |}.

(** A document whose entries are all called "default". *)
Definition docDefault (server : string) : Config :=
  {| Kind := "Config"; APIVersion := "v1";
     Preferences_ := {| Colors := false |};
     Clusters := {[ "default" := mkCluster server false "" ]};
     AuthInfos := {[ "default" := mkAuthInfo "" "" "token" ]};
     Contexts := {[ "default" := mkContext "default" "default" "" ]};
     CurrentContext := "default"; Extensions := ∅ |}.

Definition docA : Config := docDefault "https://a.example".
Definition docB : Config := docDefault "https://b.example".

(** A document with one context whose two references name nothing. *)
Definition docDangling : Config :=
  {| Kind := "Config"; APIVersion := "v1";
     Preferences_ := {| Colors := false |};
     Clusters := ∅; AuthInfos := ∅;
     Contexts := {[ "ctx" := mkContext "ghost" "phantom" "" ]};
     CurrentContext := ""; Extensions := ∅ |}.

(** A decoder that knows the texts of the sample documents and rejects
    everything else. *)
Definition load (data : string) : result Config :=
  if bool_decide (data = "text of c1") then Ok docC1
  else if bool_decide (data = "text of a") then Ok docA
  else if bool_decide (data = "text of b") then Ok docB
  else Err "yaml: did not find expected key".

Definition noPrefix : Generator := NewGenerator "".
Definition prod : Generator := NewGenerator "prod-".

(** Two clusters whose documents both use the name "default". *)
Definition twoDefaults : gmap string string :=
  {[ "a" := "text of a"; "b" := "text of b" ]}.

(** Two clusters whose prefixed documents share no name. *)
Definition twoDistinct : gmap string string :=
  {[ "a" := "text of a"; "c1" := "text of c1" ]}.

(** A configuration with a server address and the given token. *)
Definition withToken (token : string) : config.Config :=
  {| config.RancherURL := "https://rancher.example.com/";
     config.AccessKey := ""; config.SecretKey := "";
     config.Token := token; config.ClusterPrefix := "";
     config.OutputPath := ""; config.InsecureSkipTLSVerify := false;
     config.CACert := "" |}.

End examples.

(** ** Sample configurations and a sample server *)
Module samples.

(** A configuration whose address is a single slash. *)
Definition slashOnly : config.Config :=
  {| config.RancherURL := "/";
     config.AccessKey := ""; config.SecretKey := "";
     config.Token := "token-abc:secret"; config.ClusterPrefix := "";
     config.OutputPath := ""; config.InsecureSkipTLSVerify := false;
     config.CACert := "" |}.

(** A validated configuration and the client using it. *)
Definition validated : config.Config :=
  {| config.RancherURL := "https://rancher.example.com";
     config.AccessKey := "token-abc"; config.SecretKey := "secret";
     config.Token := "token-abc:secret"; config.ClusterPrefix := "";
     config.OutputPath := ""; config.InsecureSkipTLSVerify := false;
     config.CACert := "" |}.

Definition client : rancher.Client := rancher.mkClient validated.

(** Three clusters: an active one with an action URL, one that is still
    provisioning, and an active one without action URL. *)
Definition c1 : rancher.Cluster :=
  rancher.mkCluster "c-1" "c1" "" "active" "rke2" "" ""
    "https://rancher.example.com/k/c-1".
Definition c2 : rancher.Cluster :=
  rancher.mkCluster "c-2" "c2" "" "provisioning" "rke2" "" ""
    "https://rancher.example.com/k/c-2".
Definition c3 : rancher.Cluster :=
  rancher.mkCluster "c-3" "c3" "" "active" "k3s" "" "" "".

Definition listing : list rancher.Cluster := [c1; c2; c3].

(** Every request can be built. *)
Definition noError (method url : string) : option string := None.

(** A server that lists the three clusters and answers the kubeconfig
    action of "c-1"; every other request fails on the network. *)
Definition server (history : list rancher.Request) (req : rancher.Request)
    : result rancher.Response :=
  if bool_decide (rancher.URL req = "https://rancher.example.com/v3/clusters")
  then Ok (rancher.mkResponse 200 "listing")
  else if bool_decide
            (rancher.URL req = "https://rancher.example.com/k/c-1")
  then Ok (rancher.mkResponse 200 "kubeconfig of c1")
  else Err "connection refused".

(** A server that answers every kubeconfig action. *)
Definition helpfulServer (history : list rancher.Request)
    (req : rancher.Request) : result rancher.Response :=
  if bool_decide (rancher.Method req = "GET")
  then Ok (rancher.mkResponse 200 "listing")
  else Ok (rancher.mkResponse 200 "kubeconfig of c1").

Definition decodeListing (body : string) : result (list rancher.Cluster) :=
  if bool_decide (body = "listing") then Ok listing
  else Err "invalid character".

Definition decodeKubeconfig (body : string) : result string :=
  if bool_decide (body = "kubeconfig of c1") then Ok "text of c1"
  else Err "invalid character".

Definition quiet : rancher.World := rancher.mkWorld [] [].

End samples.

(** * Properties *)

(** ** Assignment loops over a map *)
Lemma iteration_of_map_to_list {A} (m : gmap string A) :
  iteration_of m (map_to_list m).
Proof. by unfold iteration_of. Qed.

Section range_assign.
Context {A B : Type} (fk : string → string) (fv : A → B).

Lemma range_assign_cons k v l (init : gmap string B) :
  range_assign fk fv ((k, v) :: l) init
  = range_assign fk fv l (<[fk k := fv v]> init).
Proof. reflexivity. Qed.

(** Later assignments win over earlier ones and over the initial map. *)
Lemma range_assign_union l (init : gmap string B) :
  range_assign fk fv l init
  = list_to_map (reverse (prod_map fk fv <$> l)) ∪ init.
Proof.
  revert init. induction l as [|[k v] l IH]; intros init.
  - unfold range_assign, range. simpl. by rewrite (left_id_L ∅ (∪)).
  - rewrite range_assign_cons, IH, fmap_cons, reverse_cons, list_to_map_app.
    simpl. rewrite <-(assoc_L (∪)). f_equal.
    by rewrite insert_empty, <-insert_union_singleton_l.
Qed.

Lemma NoDup_fst_rename `{!Inj (=) (=) fk} (l : list (string * A)) :
  NoDup l.*1 → NoDup (prod_map fk fv <$> l).*1.
Proof.
  intros Hl. rewrite <-list_fmap_compose.
  replace (fst ∘ prod_map fk fv)
    with (fk ∘ (fst : string * A → string)) by done.
  rewrite list_fmap_compose. by apply (NoDup_fmap_2 fk).
Qed.

(** With an injective renaming no two assignments hit the same key, and
    the loop computes the renamed map whatever the iteration order. *)
Lemma range_assign_kmap `{!Inj (=) (=) fk} (m : gmap string A) l :
  iteration_of m l →
  range_assign fk fv l ∅ = kmap fk (fv <$> m).
Proof.
  unfold iteration_of. intros Hl.
  rewrite range_assign_union, (right_id_L ∅ (∪)).
  assert (NoDup l.*1) as Hnd.
  { rewrite Hl. apply NoDup_fst_map_to_list. }
  unfold kmap. apply list_to_map_proper.
  - rewrite <-fmap_reverse. apply NoDup_fst_rename.
    by rewrite fmap_reverse, reverse_Permutation.
  - rewrite reverse_Permutation, map_to_list_fmap, Hl.
    rewrite <-list_fmap_compose.
    apply eq_subrelation; [apply _|]. apply list_fmap_ext. by intros ? [].
Qed.

Lemma range_assign_order `{!Inj (=) (=) fk} (m : gmap string A) l :
  iteration_of m l →
  range_assign fk fv l ∅ = range_assign fk fv (map_to_list m) ∅.
Proof.
  intros Hl. rewrite (range_assign_kmap m l Hl).
  symmetry. apply range_assign_kmap, iteration_of_map_to_list.
Qed.
End range_assign.

(** Copying the entries of [m] into [init] under their own names. *)
Lemma range_assign_id {A} (m init : gmap string A) l :
  iteration_of m l → range_assign id id l init = m ∪ init.
Proof.
  unfold iteration_of. intros Hl. rewrite range_assign_union. f_equal.
  rewrite <-(list_to_map_to_list m). apply list_to_map_proper.
  - rewrite fmap_reverse, reverse_Permutation.
    replace (prod_map id id <$> l) with l.
    + rewrite Hl. apply NoDup_fst_map_to_list.
    + rewrite <-(list_fmap_id l) at 1. apply list_fmap_ext. by intros ? [].
  - rewrite reverse_Permutation, <-Hl.
    apply eq_subrelation; [apply _|]. rewrite <-(list_fmap_id l) at 2.
    apply list_fmap_ext. by intros ? [].
Qed.

(** ** The identifier rewriter *)
Section ApplyPrefix.
Import api kubeconfig.
Variables (g : Generator) (config : Config) (clusterName : string).

(** Both branches of the renaming prepend the prefix. *)
Lemma newName_app name : newName g clusterName name = prefix g +:+ name.
Proof. unfold newName. case_bool_decide; [done|]. by simplify_eq. Qed.

#[local] Instance newName_inj : Inj (=) (=) (newName g clusterName).
Proof.
  intros n1 n2. rewrite !newName_app. apply (inj (String.app (prefix g))).
Qed.

Lemma newName_kmap {A} (m : gmap string A) :
  kmap (newName g clusterName) m
  =@{gmap string A} kmap (String.app (prefix g)) m.
Proof.
  apply map_eq. intros j. apply option_eq. intros x.
  rewrite !lookup_kmap_Some by apply _.
  split; intros (i & -> & ?); exists i; by rewrite newName_app.
Qed.

Hypothesis prefix_set : prefix g ≠ "".

Lemma ApplyPrefix_Clusters :
  Clusters (ApplyPrefix g config clusterName)
  = kmap (String.app (prefix g)) (Clusters config).
Proof.
  unfold ApplyPrefix. rewrite bool_decide_eq_false_2 by done. simpl.
  rewrite (range_assign_kmap _ _ (Clusters config))
    by apply iteration_of_map_to_list.
  by rewrite map_fmap_id, newName_kmap.
Qed.

Lemma ApplyPrefix_AuthInfos :
  AuthInfos (ApplyPrefix g config clusterName)
  = kmap (String.app (prefix g)) (AuthInfos config).
Proof.
  unfold ApplyPrefix. rewrite bool_decide_eq_false_2 by done. simpl.
  rewrite (range_assign_kmap (λ name, prefix g +:+ name) _
             (AuthInfos config)) by apply iteration_of_map_to_list.
  by rewrite map_fmap_id.
Qed.

Lemma ApplyPrefix_Contexts :
  Contexts (ApplyPrefix g config clusterName)
  = kmap (String.app (prefix g))
      (newContext g (Clusters config) clusterName <$> Contexts config).
Proof.
  unfold ApplyPrefix. rewrite bool_decide_eq_false_2 by done. simpl.
  rewrite (range_assign_kmap _ _ (Contexts config))
    by apply iteration_of_map_to_list.
  by rewrite newName_kmap.
Qed.

(** The three loops of [ApplyPrefix] give the same maps in whatever order
    the runtime ranges over the input maps. *)
Lemma ApplyPrefix_order oc oa ox :
  iteration_of (Clusters config) oc →
  iteration_of (AuthInfos config) oa →
  iteration_of (Contexts config) ox →
  range_assign (newName g clusterName) id oc ∅
    = Clusters (ApplyPrefix g config clusterName)
  ∧ range_assign (λ name, prefix g +:+ name) id oa ∅
    = AuthInfos (ApplyPrefix g config clusterName)
  ∧ range_assign (newName g clusterName)
      (newContext g (Clusters config) clusterName) ox ∅
    = Contexts (ApplyPrefix g config clusterName).
Proof.
  intros Hc Ha Hx. unfold ApplyPrefix.
  rewrite bool_decide_eq_false_2 by done. simpl.
  split_and!.
  - exact (range_assign_order _ _ _ _ Hc).
  - exact (range_assign_order (λ name, prefix g +:+ name) _ _ _ Ha).
  - exact (range_assign_order _ _ _ _ Hx).
Qed.
End ApplyPrefix.

Section ApplyPrefix_claims.
Import api kubeconfig.

(** What [newContext] does to the two references. *)
Lemma newContext_Cluster g clusters clusterName ctx :
  Context_Cluster (newContext g clusters clusterName ctx)
  = if decide (is_Some (clusters !! Context_Cluster ctx))
    then prefix g +:+ Context_Cluster ctx
    else Context_Cluster ctx.
Proof.
  unfold newContext. simpl.
  destruct (clusters !! Context_Cluster ctx) as [c|] eqn:Hc.
  - rewrite decide_True by eauto.
    case_bool_decide as Heq; [by rewrite Heq|done].
  - rewrite decide_False; [done|]. by intros [??].
Qed.

Lemma newContext_AuthInfo g clusters clusterName ctx :
  Context_AuthInfo (newContext g clusters clusterName ctx)
  = if decide (Context_AuthInfo ctx = "") then ""
    else prefix g +:+ Context_AuthInfo ctx.
Proof.
  unfold newContext. simpl.
  case_bool_decide; case_decide; congruence.
Qed.

Lemma newContext_Namespace g clusters clusterName ctx :
  Namespace (newContext g clusters clusterName ctx) = Namespace ctx.
Proof. reflexivity. Qed.

(** How a context entry of the input shows up in the output. *)
Lemma ApplyPrefix_Contexts_lookup g config clusterName name :
  prefix g ≠ "" →
  Contexts (ApplyPrefix g config clusterName) !! (prefix g +:+ name)
  = newContext g (Clusters config) clusterName <$> Contexts config !! name.
Proof.
  intros Hp. rewrite ApplyPrefix_Contexts by done.
  rewrite (lookup_kmap (String.app (prefix g))). by rewrite lookup_fmap.
Qed.

Lemma ApplyPrefix_empty config clusterName :
  ApplyPrefix (NewGenerator "") config clusterName = config.
Proof. reflexivity. Qed.

Lemma ApplyPrefix_valid g config clusterName :
  valid config → valid (ApplyPrefix g config clusterName).
Proof.
  intros Hvalid. destruct (decide (prefix g = "")) as [Hp|Hp].
  { unfold ApplyPrefix. by rewrite bool_decide_eq_true_2. }
  unfold valid. rewrite ApplyPrefix_Clusters, ApplyPrefix_AuthInfos,
    ApplyPrefix_Contexts by done.
  intros j ctx' (i & -> & Hi)%lookup_kmap_Some; [|apply _].
  apply lookup_fmap_Some in Hi as (ctx & <- & Hctx).
  destruct (Hvalid i ctx Hctx) as [Hcl Hau]. unfold resolves in *. split.
  - rewrite newContext_Cluster. case_decide as Hin.
    + right. by rewrite (lookup_kmap (String.app (prefix g))).
    + destruct Hcl; [by left|done].
  - rewrite newContext_AuthInfo. case_decide as He; [by left|].
    right. rewrite (lookup_kmap (String.app (prefix g))).
    destruct Hau; done.
Qed.

Lemma size_kmap {A} (f : string → string) `{!Inj (=) (=) f}
    (m : gmap string A) :
  size (kmap f m : gmap string A) = size m.
Proof.
  rewrite <-!length_map_to_list, (map_to_list_kmap f), length_fmap. done.
Qed.

(** The rewriter neither adds nor drops entries. *)
Lemma ApplyPrefix_sizes g config clusterName :
  size (Clusters (ApplyPrefix g config clusterName))
    = size (Clusters config)
  ∧ size (Contexts (ApplyPrefix g config clusterName))
    = size (Contexts config)
  ∧ size (AuthInfos (ApplyPrefix g config clusterName))
    = size (AuthInfos config).
Proof.
  destruct (decide (prefix g = "")) as [Hp|Hp].
  { unfold ApplyPrefix. by rewrite bool_decide_eq_true_2. }
  rewrite ApplyPrefix_Clusters, ApplyPrefix_AuthInfos,
    ApplyPrefix_Contexts by done.
  rewrite !(size_kmap (String.app (prefix g))), map_size_fmap. done.
Qed.

(** C7: with the empty prefix [ApplyPrefix] hands back the document it was
    given, for every document and every cluster name. *)
Theorem ApplyPrefix_empty_prefix_identity (config : Config)
    (clusterName : string) :
  ApplyPrefix (NewGenerator "") config clusterName = config.
Proof. reflexivity. Qed.

(** C3: [ApplyPrefix] maps a document in which every non-empty cluster
    and credential reference of a context names an existing entry to a
    document with the same property, for every prefix and cluster name. *)
Theorem ApplyPrefix_preserves_valid (g : Generator) (config : Config)
    (clusterName : string) :
  valid config → valid (ApplyPrefix g config clusterName).
Proof. apply ApplyPrefix_valid. Qed.

Lemma spec_rename_app p own n : spec_rename p own n = p +:+ n.
Proof. unfold spec_rename. case_decide; congruence. Qed.

Lemma newContext_empty_prefix clusters clusterName ctx :
  newContext (NewGenerator "") clusters clusterName ctx = ctx.
Proof.
  destruct ctx as [cl au ns]. unfold newContext. simpl. f_equal.
  - destruct (clusters !! cl); [|done]. by case_bool_decide.
  - by case_bool_decide.
Qed.

Lemma ApplyPrefix_lookup_renamed g config clusterName :
  let r := ApplyPrefix g config clusterName in
  let rn := spec_rename (prefix g) clusterName in
  (∀ n, Clusters r !! rn n = Clusters config !! n)
  ∧ (∀ k, is_Some (Clusters r !! k) →
          ∃ n, k = rn n ∧ is_Some (Clusters config !! n))
  ∧ (∀ n, Contexts r !! rn n
          = newContext g (Clusters config) clusterName
              <$> Contexts config !! n)
  ∧ (∀ k, is_Some (Contexts r !! k) →
          ∃ n, k = rn n ∧ is_Some (Contexts config !! n)).
Proof.
  intros r rn. subst r rn. destruct g as [p].
  destruct (decide (p = "")) as [->|Hp].
  - rewrite ApplyPrefix_empty. simpl. split_and!.
    + intros n. by rewrite spec_rename_app.
    + intros k Hk. exists k. by rewrite spec_rename_app.
    + intros n. rewrite spec_rename_app.
      change ("" +:+ n) with n. destruct (Contexts config !! n); [|done].
      simpl. by rewrite newContext_empty_prefix.
    + intros k Hk. exists k. by rewrite spec_rename_app.
  - simpl. split_and!.
    + intros n. rewrite spec_rename_app, ApplyPrefix_Clusters by done.
      apply (lookup_kmap (String.app p)).
    + intros k. rewrite ApplyPrefix_Clusters by done.
      intros [c (n & -> & Hn)%lookup_kmap_Some]; [|apply _].
      exists n. rewrite spec_rename_app. eauto.
    + intros n. rewrite spec_rename_app.
      by apply ApplyPrefix_Contexts_lookup.
    + intros k. rewrite ApplyPrefix_Contexts by done.
      intros [c (n & -> & Hn)%lookup_kmap_Some]; [|apply _].
      exists n. rewrite spec_rename_app. split; [done|].
      rewrite lookup_fmap in Hn. destruct (Contexts config !! n); eauto.
Qed.

(** C6: [ApplyPrefix] files every cluster entry [n] under [prefix + own
    name] when [n] is the cluster's own name and under [prefix + n]
    otherwise, and files every context entry under the name the same rule
    gives for the context's original name, with its references updated;
    no other names appear.  With own name "c1" and prefix "prod-" the
    cluster entry "c1" is found under "prod-c1", and a context "c1"
    referring to cluster "c1" is found under "prod-c1" and refers to
    "prod-c1". *)
Theorem ApplyPrefix_renames :
  (∀ g config clusterName,
     let r := ApplyPrefix g config clusterName in
     let rn := spec_rename (prefix g) clusterName in
     (∀ n, Clusters r !! rn n = Clusters config !! n)
     ∧ (∀ k, is_Some (Clusters r !! k) →
             ∃ n, k = rn n ∧ is_Some (Clusters config !! n))
     ∧ (∀ n, Contexts r !! rn n
             = newContext g (Clusters config) clusterName
                 <$> Contexts config !! n)
     ∧ (∀ k, is_Some (Contexts r !! k) →
             ∃ n, k = rn n ∧ is_Some (Contexts config !! n)))
  ∧ (∀ config cl ctx,
       Clusters config !! "c1" = Some cl →
       Contexts config !! "c1" = Some ctx →
       Context_Cluster ctx = "c1" →
       let r := ApplyPrefix (NewGenerator "prod-") config "c1" in
       Clusters r !! "prod-c1" = Some cl
       ∧ ∃ ctx', Contexts r !! "prod-c1" = Some ctx'
                 ∧ Context_Cluster ctx' = "prod-c1").
Proof.
  split; [apply ApplyPrefix_lookup_renamed|].
  intros config cl ctx Hcl Hctx Href r.
  destruct (ApplyPrefix_lookup_renamed (NewGenerator "prod-") config "c1")
    as (Hc & _ & Hx & _).
  specialize (Hc "c1"). specialize (Hx "c1").
  rewrite Hcl in Hc. rewrite Hctx in Hx. split; [exact Hc|].
  eexists. split; [exact Hx|].
  rewrite newContext_Cluster, Href, decide_True by eauto. done.
Qed.

(** C10: with a non-empty prefix, the context that [ApplyPrefix] derives
    from an input context has its cluster reference prefixed exactly when
    that reference is a key of the input's cluster map (a dangling one is
    kept as it is), while its credential reference is prefixed whenever it
    is non-empty, whether or not the credential entry exists. *)
Theorem ApplyPrefix_reference_asymmetry (g : Generator) (config : Config)
    (clusterName name : string) (ctx : Context) :
  prefix g ≠ "" →
  Contexts config !! name = Some ctx →
  ∃ ctx',
    Contexts (ApplyPrefix g config clusterName) !! (prefix g +:+ name)
      = Some ctx'
    ∧ Context_Cluster ctx'
      = (if decide (is_Some (Clusters config !! Context_Cluster ctx))
         then prefix g +:+ Context_Cluster ctx
         else Context_Cluster ctx)
    ∧ Context_AuthInfo ctx'
      = (if decide (Context_AuthInfo ctx = "") then ""
         else prefix g +:+ Context_AuthInfo ctx)
    ∧ (Clusters config !! Context_Cluster ctx = None →
       Context_Cluster ctx' = Context_Cluster ctx)
    ∧ (Context_AuthInfo ctx ≠ "" →
       AuthInfos config !! Context_AuthInfo ctx = None →
       Context_AuthInfo ctx' = prefix g +:+ Context_AuthInfo ctx).
Proof.
  intros Hp Hctx. eexists. split.
  { rewrite ApplyPrefix_Contexts_lookup, Hctx by done. reflexivity. }
  rewrite newContext_Cluster, newContext_AuthInfo. split_and!; [done..| |].
  - intros Hnone. rewrite decide_False; [done|].
    rewrite Hnone. by intros [??].
  - intros Hne _. by rewrite decide_False.
Qed.

Lemma ApplyPrefix_preserves_valid_witness :
  valid examples.docC1
  ∧ valid (ApplyPrefix examples.prod examples.docC1 "c1").
Proof.
  assert (valid examples.docC1) as Hv
    by (apply (bool_decide_unpack _); by vm_compute).
  split; [exact Hv|].
  exact (ApplyPrefix_preserves_valid examples.prod examples.docC1 "c1" Hv).
Defined.

Lemma ApplyPrefix_renames_witness :
  Clusters examples.docC1 !! "c1"
    = Some (mkCluster "https://c1.example" false "")
  ∧ Contexts examples.docC1 !! "c1" = Some (mkContext "c1" "u1" "")
  ∧ Clusters (ApplyPrefix examples.prod examples.docC1 "c1") !! "prod-c1"
    = Some (mkCluster "https://c1.example" false "")
  ∧ ∃ ctx',
      Contexts (ApplyPrefix examples.prod examples.docC1 "c1") !! "prod-c1"
        = Some ctx'
      ∧ Context_Cluster ctx' = "prod-c1".
Proof.
  assert (Clusters examples.docC1 !! "c1"
          = Some (mkCluster "https://c1.example" false "")) as Hcl
    by reflexivity.
  assert (Contexts examples.docC1 !! "c1" = Some (mkContext "c1" "u1" ""))
    as Hctx by reflexivity.
  split_and!; [exact Hcl|exact Hctx|..];
    destruct ApplyPrefix_renames as [_ Hex];
    destruct (Hex examples.docC1 _ _ Hcl Hctx eq_refl) as [Hc Hx].
  - exact Hc.
  - exact Hx.
Defined.

Lemma ApplyPrefix_reference_asymmetry_witness :
  prefix examples.prod ≠ ""
  ∧ Contexts examples.docDangling !! "ctx"
    = Some (mkContext "ghost" "phantom" "")
  ∧ Clusters examples.docDangling !! "ghost" = None
  ∧ AuthInfos examples.docDangling !! "phantom" = None
  ∧ ∃ ctx',
      Contexts (ApplyPrefix examples.prod examples.docDangling "c1")
        !! "prod-ctx" = Some ctx'
      ∧ Context_Cluster ctx' = "ghost"
      ∧ Context_AuthInfo ctx' = "prod-phantom".
Proof.
  assert (prefix examples.prod ≠ "") as Hp by done.
  assert (Contexts examples.docDangling !! "ctx"
          = Some (mkContext "ghost" "phantom" "")) as Hctx by reflexivity.
  split_and!; [exact Hp|exact Hctx|reflexivity|reflexivity|].
  destruct (ApplyPrefix_reference_asymmetry examples.prod
              examples.docDangling "c1" "ctx" _ Hp Hctx)
    as (ctx' & Hlook & _ & _ & Hcl & Hau).
  exists ctx'. split_and!.
  - exact Hlook.
  - exact (Hcl eq_refl).
  - apply Hau; [done|reflexivity].
Defined.
End ApplyPrefix_claims.

(** ** The merger *)
Section MergeConfigs.
Import api kubeconfig.
Variable Load : string → result Config.
Variable g : Generator.

Lemma mergeInto_Clusters m p :
  Clusters (mergeInto m p) = Clusters p ∪ Clusters m.
Proof. apply range_assign_id, iteration_of_map_to_list. Qed.

Lemma mergeInto_AuthInfos m p :
  AuthInfos (mergeInto m p) = AuthInfos p ∪ AuthInfos m.
Proof. apply range_assign_id, iteration_of_map_to_list. Qed.

Lemma mergeInto_Contexts m p :
  Contexts (mergeInto m p) = Contexts p ∪ Contexts m.
Proof. apply range_assign_id, iteration_of_map_to_list. Qed.

Lemma mergeInto_CurrentContext m p :
  CurrentContext (mergeInto m p) = CurrentContext m.
Proof. reflexivity. Qed.

(** The copy loops do not depend on the order in which the runtime ranges
    over the prefixed document. *)
Lemma mergeInto_order m p oc oa ox :
  iteration_of (Clusters p) oc →
  iteration_of (AuthInfos p) oa →
  iteration_of (Contexts p) ox →
  range_assign id id oc (Clusters m) = Clusters (mergeInto m p)
  ∧ range_assign id id oa (AuthInfos m) = AuthInfos (mergeInto m p)
  ∧ range_assign id id ox (Contexts m) = Contexts (mergeInto m p).
Proof.
  intros Hc Ha Hx.
  rewrite mergeInto_Clusters, mergeInto_AuthInfos, mergeInto_Contexts.
  split_and!; by apply range_assign_id.
Qed.

Lemma mergeInto_eq m p :
  mergeInto m p
  = {| Kind := Kind m; APIVersion := APIVersion m;
       Preferences_ := Preferences_ m;
       Clusters := Clusters p ∪ Clusters m;
       AuthInfos := AuthInfos p ∪ AuthInfos m;
       Contexts := Contexts p ∪ Contexts m;
       CurrentContext := CurrentContext m;
       Extensions := Extensions m |}.
Proof.
  rewrite <-mergeInto_Clusters, <-mergeInto_AuthInfos,
    <-mergeInto_Contexts. reflexivity.
Qed.

(** The loop is the fold of [mergeInto] over the prefixed documents. *)
Lemma mergeLoop_prefixedConfigs order m :
  mergeLoop Load g order m
  = match prefixedConfigs Load g order with
    | Ok docs => Ok (foldl mergeInto m docs)
    | Err err => Err err
    end.
Proof.
  revert m. induction order as [|[clusterName data] rest IH]; intros m.
  - reflexivity.
  - simpl. unfold prefixedConfig. simpl.
    destruct (ParseKubeconfig Load g data) as [config|err]; [|done].
    rewrite IH. by destruct (prefixedConfigs Load g rest).
Qed.

Lemma foldl_mergeInto_CurrentContext docs m :
  CurrentContext (foldl mergeInto m docs) = CurrentContext m.
Proof.
  revert m. induction docs as [|d docs IH]; intros m; [done|].
  simpl. by rewrite IH.
Qed.

(** Parsing fails exactly when the decoder does. *)
Lemma prefixedConfig_Err entry :
  is_Err (prefixedConfig Load g entry) ↔ is_Err (Load entry.2).
Proof.
  unfold prefixedConfig, ParseKubeconfig. by destruct (Load entry.2).
Qed.

Lemma prefixedConfigs_Err order :
  is_Err (prefixedConfigs Load g order)
  ↔ Exists (λ entry, is_Err (Load entry.2)) order.
Proof.
  induction order as [|entry rest IH]; simpl.
  - by rewrite Exists_nil.
  - rewrite Exists_cons, <-IH, <-prefixedConfig_Err.
    destruct (prefixedConfig Load g entry); simpl; [|tauto].
    destruct (prefixedConfigs Load g rest); simpl; tauto.
Qed.

Lemma MergeConfigs_Err order :
  is_Err (MergeConfigs Load g order)
  ↔ Exists (λ entry, is_Err (Load entry.2)) order.
Proof.
  rewrite <-prefixedConfigs_Err. unfold MergeConfigs.
  rewrite mergeLoop_prefixedConfigs.
  by destruct (prefixedConfigs Load g order).
Qed.
End MergeConfigs.

Section merged_maps.
Import api kubeconfig.

(** A lookup in a merged map goes to the last document defining the key,
    and to the initial map when none does. *)
Lemma foldl_mergeInto_lookup {A} (sel : Config → gmap string A) :
  (∀ m p, sel (mergeInto m p) = sel p ∪ sel m) →
  ∀ docs m k,
    sel (foldl mergeInto m docs) !! k
    = foldl (λ found doc,
               match sel doc !! k with Some v => Some v | None => found end)
        (sel m !! k) docs.
Proof.
  intros Hsel docs. induction docs as [|d docs IH]; intros m k; [done|].
  simpl. rewrite IH, Hsel. f_equal.
  destruct (sel d !! k) as [v|] eqn:Hd.
  - by apply lookup_union_Some_l.
  - by apply lookup_union_r.
Qed.

Lemma foldl_mergeInto_lastWrite docs k :
  let m := foldl mergeInto NewConfig docs in
  Clusters m !! k = lastWrite Clusters docs k
  ∧ AuthInfos m !! k = lastWrite AuthInfos docs k
  ∧ Contexts m !! k = lastWrite Contexts docs k.
Proof.
  unfold lastWrite. simpl. split_and!.
  - by rewrite (foldl_mergeInto_lookup Clusters mergeInto_Clusters).
  - by rewrite (foldl_mergeInto_lookup AuthInfos mergeInto_AuthInfos).
  - by rewrite (foldl_mergeInto_lookup Contexts mergeInto_Contexts).
Qed.

Lemma resolves_union_l {A} (m1 m2 : gmap string A) ref :
  resolves m1 ref → resolves (m1 ∪ m2) ref.
Proof.
  intros [?|?]; [by left|right].
  apply lookup_union_is_Some. by left.
Qed.

Lemma resolves_union_r {A} (m1 m2 : gmap string A) ref :
  resolves m2 ref → resolves (m1 ∪ m2) ref.
Proof.
  intros [?|?]; [by left|right].
  apply lookup_union_is_Some. by right.
Qed.

(** Merging keeps references resolvable: names are only ever added. *)
Lemma mergeInto_valid m p : valid m → valid p → valid (mergeInto m p).
Proof.
  unfold valid. intros Hm Hp.
  rewrite mergeInto_Clusters, mergeInto_AuthInfos, mergeInto_Contexts.
  intros name ctx [Hctx|[_ Hctx]]%lookup_union_Some_raw.
  - destruct (Hp name ctx Hctx). split; by apply resolves_union_l.
  - destruct (Hm name ctx Hctx). split; by apply resolves_union_r.
Qed.

Lemma NewConfig_valid : valid NewConfig.
Proof. unfold valid. simpl. apply map_Forall_empty. Qed.

(** Documents without a common name can be merged in either order. *)
Lemma mergeInto_comm m d1 d2 :
  disjointDocs d1 d2 →
  mergeInto (mergeInto m d1) d2 = mergeInto (mergeInto m d2) d1.
Proof.
  intros (Hc & Ha & Hx). rewrite !mergeInto_eq. simpl.
  rewrite !(assoc_L (∪)).
  by rewrite (map_union_comm (Clusters d2)),
    (map_union_comm (AuthInfos d2)), (map_union_comm (Contexts d2)).
Qed.
End merged_maps.

Section processing_order.
Import api kubeconfig.
Variable Load : string → result Config.
Variable g : Generator.

(** When entries of different clusters give documents without a common
    name, the loop returns the same result for every arrangement of the
    entries. *)
Lemma mergeLoop_Permutation o1 o2 :
  o1 ≡ₚ o2 →
  NoDup o1.*1 →
  Forall (λ entry, is_Ok (Load entry.2)) o1 →
  (∀ e1 e2 c1 c2,
     e1 ∈ o1 → e2 ∈ o1 → e1.1 ≠ e2.1 →
     Load e1.2 = Ok c1 → Load e2.2 = Ok c2 →
     disjointDocs (ApplyPrefix g c1 e1.1) (ApplyPrefix g c2 e2.1)) →
  ∀ m, mergeLoop Load g o1 m = mergeLoop Load g o2 m.
Proof.
  induction 1 as [|[n s] l1 l2 Hl IH|[n1 s1] [n2 s2] l|l1 l2 l3 H12 IH12 H23 IH23];
    intros Hnd Hok Hfree m.
  - reflexivity.
  - simpl. destruct (ParseKubeconfig Load g s); [|done].
    apply IH.
    + by apply NoDup_cons in Hnd as [_ ?].
    + by apply Forall_cons in Hok as [_ ?].
    + intros e1 e2 c1 c2 ??. apply Hfree; by apply elem_of_cons; right.
  - simpl. unfold ParseKubeconfig.
    apply Forall_cons in Hok as [Hok2 [Hok1 _]%Forall_cons].
    simpl in Hok1, Hok2.
    destruct (Load s1) as [c1|] eqn:H1; [|done].
    destruct (Load s2) as [c2|] eqn:H2; [|done].
    f_equal. apply mergeInto_comm.
    apply (Hfree (n2, s2) (n1, s1)); simpl; [| |..|done|done].
    + apply elem_of_cons; by left.
    + apply elem_of_cons; right. apply elem_of_cons; by left.
    + apply NoDup_cons in Hnd as [Hn _]. simpl in Hn.
      intros ->. apply Hn. apply elem_of_cons; by left.
  - rewrite IH12 by done. apply IH23.
    + by rewrite <-H12.
    + by rewrite <-H12.
    + intros e1 e2 c1 c2 ??. apply Hfree; by rewrite H12.
Qed.
End processing_order.

(** ** Claims about the merger *)
Section MergeConfigs_claims.
Import api kubeconfig examples.

(** C1 (as amended): whatever documents are merged, one or several, the
    document returned by [MergeConfigs] has an empty current context. *)
Theorem MergeConfigs_current_context_empty
    (Load : string → result Config) (g : Generator)
    (order : list (string * string)) (m : Config) :
  MergeConfigs Load g order = Ok m → CurrentContext m = "".
Proof.
  unfold MergeConfigs. rewrite mergeLoop_prefixedConfigs.
  destruct (prefixedConfigs Load g order) as [docs|]; [|done].
  intros [= <-]. by rewrite foldl_mergeInto_CurrentContext.
Qed.

Lemma MergeConfigs_current_context_empty_witness :
  ∃ m, MergeConfigs load prod [("c1", "text of c1")] = Ok m
       ∧ CurrentContext m = "".
Proof.
  eexists. split; [vm_compute; reflexivity|].
  apply (MergeConfigs_current_context_empty load prod
           [("c1", "text of c1")]).
  vm_compute. reflexivity.
Defined.

(** C1 as stated fails: the single document of cluster "c1" has current
    context "c1", which the rewriter turns into "prod-c1", yet the merged
    document has no current context. *)
Lemma MergeConfigs_single_drops_current_context :
  ∃ m, MergeConfigs load prod [("c1", "text of c1")] = Ok m
       ∧ load "text of c1" = Ok docC1
       ∧ CurrentContext (ApplyPrefix prod docC1 "c1") = "prod-c1"
       ∧ CurrentContext m ≠ CurrentContext (ApplyPrefix prod docC1 "c1").
Proof.
  eexists. split; [vm_compute; reflexivity|].
  split_and!; [done|done|]. vm_compute. discriminate.
Qed.

(** C5 (as amended): a document that fails to decode aborts the merge.
    When the documents processed before it decode, [MergeConfigs] returns
    the decoder's error wrapped with the name of the cluster, and no
    merged document, whatever the remaining documents are. *)
Theorem MergeConfigs_parse_error_aborts
    (Load : string → result Config) (g : Generator)
    (before after : list (string * string))
    (clusterName data err : string) :
  Forall (λ entry, is_Ok (Load entry.2)) before →
  Load data = Err err →
  MergeConfigs Load g (before ++ (clusterName, data) :: after)
  = Err ("failed to parse kubeconfig for cluster " +:+ clusterName
         +:+ ": failed to parse kubeconfig: " +:+ err).
Proof.
  intros Hbefore Hdata. unfold MergeConfigs. generalize NewConfig.
  induction Hbefore as [|[n d] before Hd _ IH]; intros m; simpl.
  - unfold ParseKubeconfig. by rewrite Hdata.
  - unfold ParseKubeconfig in *. simpl in Hd.
    destruct (Load d); [apply IH|done].
Qed.

Lemma MergeConfigs_parse_error_aborts_witness :
  Forall (λ entry, is_Ok (load entry.2)) [("c1", "text of c1")]
  ∧ load "not yaml" = Err "yaml: did not find expected key"
  ∧ MergeConfigs load prod
      ([("c1", "text of c1")] ++ ("c2", "not yaml") :: [("a", "text of a")])
    = Err ("failed to parse kubeconfig for cluster c2: "
           +:+ "failed to parse kubeconfig: "
           +:+ "yaml: did not find expected key").
Proof.
  assert (Forall (λ entry, is_Ok (load entry.2)) [("c1", "text of c1")])
    as Hbefore by (repeat constructor).
  split_and!; [exact Hbefore|reflexivity|].
  exact (MergeConfigs_parse_error_aborts load prod
           [("c1", "text of c1")] [("a", "text of a")] "c2" "not yaml"
           "yaml: did not find expected key" Hbefore eq_refl).
Defined.

(** C5 as stated fails: of the three documents of clusters "c1", "c2" and
    "a" only the one of "c2" is malformed, and the merge does not succeed,
    in whichever position the malformed document is processed. *)
Lemma MergeConfigs_one_bad_document_fails :
  is_Ok (load "text of c1") ∧ is_Ok (load "text of a")
  ∧ is_Err (load "not yaml")
  ∧ is_Err (MergeConfigs load prod
              [("c2", "not yaml"); ("c1", "text of c1"); ("a", "text of a")])
  ∧ is_Err (MergeConfigs load prod
              [("c1", "text of c1"); ("c2", "not yaml"); ("a", "text of a")])
  ∧ is_Err (MergeConfigs load prod
              [("c1", "text of c1"); ("a", "text of a"); ("c2", "not yaml")]).
Proof. vm_compute. tauto. Qed.

(** C2 (as amended): when every document decodes, [MergeConfigs] returns
    a document in which each name of each of the three maps carries the
    entry of the last processed document defining it; an earlier entry
    under the same name is replaced, and nothing but the document is
    returned. *)
Theorem MergeConfigs_last_write_wins
    (Load : string → result Config) (g : Generator)
    (order : list (string * string)) (docs : list Config) :
  prefixedConfigs Load g order = Ok docs →
  ∃ m, MergeConfigs Load g order = Ok m
       ∧ ∀ k, Clusters m !! k = lastWrite Clusters docs k
              ∧ AuthInfos m !! k = lastWrite AuthInfos docs k
              ∧ Contexts m !! k = lastWrite Contexts docs k.
Proof.
  intros Hdocs. unfold MergeConfigs.
  rewrite mergeLoop_prefixedConfigs, Hdocs.
  eexists. split; [done|]. intros k. apply foldl_mergeInto_lastWrite.
Qed.

Lemma MergeConfigs_last_write_wins_witness :
  prefixedConfigs load noPrefix [("a", "text of a"); ("b", "text of b")]
    = Ok [docA; docB]
  ∧ ∃ m, MergeConfigs load noPrefix
           [("a", "text of a"); ("b", "text of b")] = Ok m
         ∧ Clusters m !! "default"
           = Some (mkCluster "https://b.example" false "").
Proof.
  split; [reflexivity|].
  destruct (MergeConfigs_last_write_wins load noPrefix
              [("a", "text of a"); ("b", "text of b")] [docA; docB]
              eq_refl) as (m & Hm & Hk).
  exists m. split; [exact Hm|].
  destruct (Hk "default") as (-> & _). reflexivity.
Defined.

(** C2 as stated fails: the value [MergeConfigs] returns when the
    documents of "a" and "b" collide on the name "default" is the very
    value it returns for "b" alone, so nothing computed from the returned
    value holds one warning in the first case and none in the second. *)
Lemma MergeConfigs_collision_not_reported :
  Clusters docA !! "default" ≠ None
  ∧ Clusters docB !! "default" ≠ None
  ∧ ¬ ∃ warnings : result Config → list CollisionWarning,
        warnings (MergeConfigs load noPrefix
                    [("a", "text of a"); ("b", "text of b")])
          = [mkCollisionWarning "default" "a" "b"]
        ∧ warnings (MergeConfigs load noPrefix [("b", "text of b")]) = [].
Proof.
  split_and!; [by vm_compute..|].
  assert (MergeConfigs load noPrefix
            [("a", "text of a"); ("b", "text of b")]
          = MergeConfigs load noPrefix [("b", "text of b")]) as Heq
    by (vm_compute; reflexivity).
  intros (warnings & Hab & Hb). rewrite Heq, Hb in Hab. discriminate.
Qed.

(** C9: for two valid documents whose prefixed forms share no name in
    any of the three maps, the merge succeeds, each map of the merged
    document has as many entries as the two prefixed documents (and the
    two input documents) together, and every non-empty reference of a
    merged context names an entry of the merged document. *)
Theorem MergeConfigs_disjoint_sizes
    (Load : string → result Config) (g : Generator)
    (n1 s1 n2 s2 : string) (d1 d2 : Config) :
  Load s1 = Ok d1 → Load s2 = Ok d2 →
  valid d1 → valid d2 →
  disjointDocs (ApplyPrefix g d1 n1) (ApplyPrefix g d2 n2) →
  ∃ m, MergeConfigs Load g [(n1, s1); (n2, s2)] = Ok m
       ∧ size (Clusters m)
         = size (Clusters (ApplyPrefix g d1 n1))
           + size (Clusters (ApplyPrefix g d2 n2))
       ∧ size (Contexts m)
         = size (Contexts (ApplyPrefix g d1 n1))
           + size (Contexts (ApplyPrefix g d2 n2))
       ∧ size (AuthInfos m)
         = size (AuthInfos (ApplyPrefix g d1 n1))
           + size (AuthInfos (ApplyPrefix g d2 n2))
       ∧ size (Clusters m) = size (Clusters d1) + size (Clusters d2)
       ∧ size (Contexts m) = size (Contexts d1) + size (Contexts d2)
       ∧ size (AuthInfos m) = size (AuthInfos d1) + size (AuthInfos d2)
       ∧ valid m.
Proof.
  intros H1 H2 Hv1 Hv2 (Hc & Ha & Hx).
  unfold MergeConfigs. simpl. unfold ParseKubeconfig. rewrite H1, H2.
  eexists. split; [reflexivity|].
  rewrite !mergeInto_Clusters, !mergeInto_AuthInfos, !mergeInto_Contexts.
  simpl. rewrite !(right_id_L ∅ (∪)).
  rewrite !map_size_disj_union by done.
  destruct (ApplyPrefix_sizes g d1 n1) as (Ec1 & Ex1 & Ea1).
  destruct (ApplyPrefix_sizes g d2 n2) as (Ec2 & Ex2 & Ea2).
  split_and!; try lia.
  apply mergeInto_valid; [apply mergeInto_valid|].
  - apply NewConfig_valid.
  - by apply ApplyPrefix_valid.
  - by apply ApplyPrefix_valid.
Qed.

(** C4 (as amended): the merge processes the documents in the order in
    which the runtime ranges over the input map, which is not fixed.  When
    every document decodes and the prefixed documents of different
    clusters share no name, any two runs on the same input map return the
    same result. *)
Theorem MergeConfigs_order_irrelevant_without_collisions
    (Load : string → result Config) (g : Generator)
    (clusterKubeconfigs : gmap string string)
    (run1 run2 : result Config) :
  (∀ n s, clusterKubeconfigs !! n = Some s → is_Ok (Load s)) →
  (∀ n1 s1 n2 s2 c1 c2,
     n1 ≠ n2 →
     clusterKubeconfigs !! n1 = Some s1 →
     clusterKubeconfigs !! n2 = Some s2 →
     Load s1 = Ok c1 → Load s2 = Ok c2 →
     disjointDocs (ApplyPrefix g c1 n1) (ApplyPrefix g c2 n2)) →
  MergeConfigs_returns Load g clusterKubeconfigs run1 →
  MergeConfigs_returns Load g clusterKubeconfigs run2 →
  run1 = run2.
Proof.
  unfold MergeConfigs_returns, iteration_of.
  intros Hok Hfree (order1 & H1 & <-) (order2 & H2 & <-).
  assert (∀ e, e ∈ order1 → clusterKubeconfigs !! e.1 = Some e.2) as Hin.
  { intros [n s]. rewrite H1. apply elem_of_map_to_list. }
  apply mergeLoop_Permutation.
  - by rewrite H1, H2.
  - rewrite H1. apply NoDup_fst_map_to_list.
  - apply Forall_forall. intros e He. eapply Hok, Hin, He.
  - intros e1 e2 c1 c2 He1 He2 Hne. apply Hfree; auto.
Qed.

Lemma disjointDocs_prod_a_c1 :
  disjointDocs (ApplyPrefix prod docA "a") (ApplyPrefix prod docC1 "c1").
Proof.
  unfold disjointDocs.
  split_and!; apply (bool_decide_unpack _); by vm_compute.
Qed.

Lemma twoDistinct_lookup n s :
  twoDistinct !! n = Some s →
  (n = "a" ∧ s = "text of a") ∨ (n = "c1" ∧ s = "text of c1").
Proof.
  unfold twoDistinct.
  intros [[<- <-]|[_ [<- <-]%lookup_singleton_Some]]%lookup_insert_Some;
    auto.
Qed.

Lemma iteration_of_twoDistinct :
  iteration_of twoDistinct [("a", "text of a"); ("c1", "text of c1")]
  ∧ iteration_of twoDistinct [("c1", "text of c1"); ("a", "text of a")].
Proof.
  assert (iteration_of twoDistinct
            [("a", "text of a"); ("c1", "text of c1")]) as H1.
  { unfold iteration_of. symmetry.
    change twoDistinct
      with (list_to_map [("a", "text of a"); ("c1", "text of c1")]
            : gmap string string).
    apply map_to_list_to_map.
    apply (bool_decide_unpack _). by vm_compute. }
  split; [exact H1|].
  unfold iteration_of in *. rewrite <-H1. apply perm_swap.
Qed.

Lemma MergeConfigs_order_irrelevant_without_collisions_witness :
  MergeConfigs_returns load prod twoDistinct
    (MergeConfigs load prod [("a", "text of a"); ("c1", "text of c1")])
  ∧ MergeConfigs_returns load prod twoDistinct
      (MergeConfigs load prod [("c1", "text of c1"); ("a", "text of a")])
  ∧ MergeConfigs load prod [("a", "text of a"); ("c1", "text of c1")]
    = MergeConfigs load prod [("c1", "text of c1"); ("a", "text of a")].
Proof.
  destruct iteration_of_twoDistinct as [H1 H2].
  assert (MergeConfigs_returns load prod twoDistinct
            (MergeConfigs load prod
               [("a", "text of a"); ("c1", "text of c1")])) as R1
    by (eexists; split; [exact H1|reflexivity]).
  assert (MergeConfigs_returns load prod twoDistinct
            (MergeConfigs load prod
               [("c1", "text of c1"); ("a", "text of a")])) as R2
    by (eexists; split; [exact H2|reflexivity]).
  split_and!; [exact R1|exact R2|].
  apply (MergeConfigs_order_irrelevant_without_collisions load prod
           twoDistinct); [| |exact R1|exact R2].
  - intros n s [[-> ->]|[-> ->]]%twoDistinct_lookup; exact I.
  - intros n1 s1 n2 s2 c1 c2 Hne
      [[-> ->]|[-> ->]]%twoDistinct_lookup
      [[-> ->]|[-> ->]]%twoDistinct_lookup; try done;
      intros [= <-] [= <-].
    + apply disjointDocs_prod_a_c1.
    + destruct disjointDocs_prod_a_c1 as (? & ? & ?).
      unfold disjointDocs. by split_and!.
Defined.

(** C4 as stated fails: on the map with the documents of "a" and "b",
    which both define "default", the runtime may range in either order, and
    the two runs return different documents. *)
Lemma MergeConfigs_depends_on_iteration_order :
  ∃ run1 run2,
    MergeConfigs_returns load noPrefix twoDefaults run1
    ∧ MergeConfigs_returns load noPrefix twoDefaults run2
    ∧ run1 ≠ run2.
Proof.
  assert (iteration_of twoDefaults
            [("a", "text of a"); ("b", "text of b")]) as H1.
  { unfold iteration_of. symmetry.
    change twoDefaults
      with (list_to_map [("a", "text of a"); ("b", "text of b")]
            : gmap string string).
    apply map_to_list_to_map.
    apply (bool_decide_unpack _). by vm_compute. }
  assert (iteration_of twoDefaults
            [("b", "text of b"); ("a", "text of a")]) as H2.
  { unfold iteration_of in *. rewrite <-H1. apply perm_swap. }
  exists (MergeConfigs load noPrefix
            [("a", "text of a"); ("b", "text of b")]),
         (MergeConfigs load noPrefix
            [("b", "text of b"); ("a", "text of a")]).
  split_and!.
  - eexists. split; [exact H1|reflexivity].
  - eexists. split; [exact H2|reflexivity].
  - intros Heq.
    apply (f_equal (λ r, match r with
                         | Ok m => Server <$> Clusters m !! "default"
                         | Err _ => None
                         end)) in Heq.
    vm_compute in Heq. discriminate.
Qed.

Lemma MergeConfigs_disjoint_sizes_witness :
  load "text of a" = Ok docA ∧ load "text of c1" = Ok docC1
  ∧ valid docA ∧ valid docC1
  ∧ disjointDocs (ApplyPrefix prod docA "a") (ApplyPrefix prod docC1 "c1")
  ∧ ∃ m, MergeConfigs load prod [("a", "text of a"); ("c1", "text of c1")]
           = Ok m
         ∧ size (Clusters m) = 2 ∧ size (Contexts m) = 2
         ∧ size (AuthInfos m) = 2 ∧ valid m.
Proof.
  assert (valid docA) as HvA by (apply (bool_decide_unpack _); by vm_compute).
  assert (valid docC1) as HvC
    by (apply (bool_decide_unpack _); by vm_compute).
  split_and!; [reflexivity|reflexivity|exact HvA|exact HvC
              |exact disjointDocs_prod_a_c1|].
  destruct (MergeConfigs_disjoint_sizes load prod
              "a" "text of a" "c1" "text of c1" docA docC1
              eq_refl eq_refl HvA HvC disjointDocs_prod_a_c1)
    as (m & Hm & _ & _ & _ & Hc & Hx & Ha & Hv).
  exists m. split_and!; [exact Hm|exact Hc|exact Hx|exact Ha|exact Hv].
Defined.
End MergeConfigs_claims.

(** ** Configuration validation *)
Section Validate.
Import config examples.

Lemma Cut_None s sep :
  strings.Cut s sep = None ↔ sep ∉ strings.bytes s.
Proof.
  induction s as [|c s IH]; simpl.
  - split; [intros _; apply not_elem_of_nil|done].
  - rewrite not_elem_of_cons. case_bool_decide as Hc.
    + split; [done|]. intros [? _]. congruence.
    + destruct (strings.Cut s sep) as [[??]|].
      * split; [done|]. intros [_ Hs]. by apply IH in Hs.
      * split; [|done]. intros _. split; [congruence|]. by apply IH.
Qed.

Lemma Cut_Some s sep before after :
  strings.Cut s sep = Some (before, after) →
  s = before +:+ String sep after ∧ sep ∉ strings.bytes before.
Proof.
  revert before. induction s as [|c s IH]; intros before; simpl; [done|].
  case_bool_decide as Hc.
  - intros [= <- <-]. subst c. split; [done|]. apply not_elem_of_nil.
  - destruct (strings.Cut s sep) as [[b a]|]; [|done].
    intros [= <- <-]. destruct (IH b eq_refl) as [-> Hb].
    split; [done|]. simpl. apply not_elem_of_cons. split; [congruence|done].
Qed.

Lemma SplitN_2 s sep :
  strings.SplitN s sep 2
  = match strings.Cut s sep with
    | Some (before, after) => [before; after]
    | None => [s]
    end.
Proof. simpl. by destruct (strings.Cut s sep) as [[??]|]. Qed.

(** The outcome of [Validate] once the address and the token are there. *)
Lemma Validate_with_token c :
  RancherURL c ≠ "" → Token c ≠ "" →
  Validate c
  = let c' := set_RancherURL c (strings.TrimSuffix (RancherURL c) "/") in
    match strings.Cut (Token c) colon with
    | Some (access, secret) => (set_keys c' access secret, None)
    | None =>
        (c', Some "invalid token format, expected 'access_key:secret_key'")
    end.
Proof.
  intros Hurl Htoken. unfold Validate.
  rewrite (bool_decide_eq_false_2 (RancherURL c = "")) by done.
  cbn [Token set_RancherURL AccessKey SecretKey].
  rewrite (bool_decide_eq_false_2 (Token c = "")) by done.
  rewrite (bool_decide_eq_true_2 (Token c ≠ "")) by done.
  cbn [andb]. rewrite SplitN_2.
  by destruct (strings.Cut (Token c) colon) as [[??]|].
Qed.

(** C8 (as amended): for a configuration with a server address and a
    non-empty token, [Validate] returns an error when the token holds no
    separator; when it holds one, the token is accepted and cut at its
    first separator into access key and secret key, whatever the two
    pieces are: either may be empty and the secret key may hold further
    separators. *)
Theorem Validate_token_needs_separator (c : Config) :
  RancherURL c ≠ "" → Token c ≠ "" →
  (colon ∉ strings.bytes (Token c) →
     (Validate c).2
     = Some "invalid token format, expected 'access_key:secret_key'")
  ∧ (colon ∈ strings.bytes (Token c) →
       (Validate c).2 = None
       ∧ Token c
         = AccessKey (Validate c).1 +:+ ":" +:+ SecretKey (Validate c).1
       ∧ colon ∉ strings.bytes (AccessKey (Validate c).1)).
Proof.
  intros Hurl Htoken. rewrite Validate_with_token by done. cbn zeta.
  destruct (strings.Cut (Token c) colon) as [[access secret]|] eqn:Hcut.
  - apply Cut_Some in Hcut as [Heq Hacc]. split.
    + intros Hno. exfalso. apply Hno. rewrite Heq. clear.
      induction access as [|a access IH]; simpl.
      * apply elem_of_cons; by left.
      * apply elem_of_cons; by right.
    + intros _. simpl. done.
  - apply Cut_None in Hcut. split; [done|]. intros Hin. by destruct Hcut.
Qed.

Lemma Validate_token_needs_separator_witness :
  RancherURL (withToken "a:b:c") ≠ ""
  ∧ Token (withToken "a:b:c") ≠ ""
  ∧ colon ∈ strings.bytes (Token (withToken "a:b:c"))
  ∧ (Validate (withToken "a:b:c")).2 = None
  ∧ Token (withToken "a:b:c")
    = AccessKey (Validate (withToken "a:b:c")).1 +:+ ":"
      +:+ SecretKey (Validate (withToken "a:b:c")).1.
Proof.
  assert (RancherURL (withToken "a:b:c") ≠ "") as Hurl by done.
  assert (Token (withToken "a:b:c") ≠ "") as Htoken by done.
  assert (colon ∈ strings.bytes (Token (withToken "a:b:c"))) as Hin.
  { simpl. apply elem_of_cons; right. apply elem_of_cons; by left. }
  split_and!; [exact Hurl|exact Htoken|exact Hin|..];
    destruct (Validate_token_needs_separator (withToken "a:b:c")
                Hurl Htoken) as [_ Hyes];
    destruct (Hyes Hin) as (Hnone & Hsplit & _).
  - exact Hnone.
  - exact Hsplit.
Defined.

(** C8 as stated fails: a token with three parts, a token with an empty
    access key and a token with an empty secret key are all non-empty, none
    is made of two non-empty parts around a single separator, and
    [Validate] accepts each of them. *)
Lemma Validate_accepts_malformed_tokens :
  (Token (withToken "a:b:c") ≠ ""
   ∧ ¬ spec_token_well_formed (Token (withToken "a:b:c"))
   ∧ (Validate (withToken "a:b:c")).2 = None)
  ∧ (Token (withToken ":secret") ≠ ""
     ∧ ¬ spec_token_well_formed (Token (withToken ":secret"))
     ∧ (Validate (withToken ":secret")).2 = None)
  ∧ (Token (withToken "access:") ≠ ""
     ∧ ¬ spec_token_well_formed (Token (withToken "access:"))
     ∧ (Validate (withToken "access:")).2 = None).
Proof.
  split_and!; try done; try reflexivity.
  - intros H. vm_compute in H. exact H.
  - intros H. vm_compute in H. by destruct H.
  - intros H. vm_compute in H. by destruct H.
Qed.
End Validate.

(** ** More on configuration validation *)
Section Validate_more.
Import config.

Lemma append_cons c (s1 s2 : string) :
  String c s1 +:+ s2 = String c (s1 +:+ s2).
Proof. reflexivity. Qed.

Lemma length_append (s1 s2 : string) :
  String.length (s1 +:+ s2) = String.length s1 + String.length s2.
Proof. induction s1 as [|c s1 IH]; [done|]. rewrite append_cons. simpl. lia. Qed.

Lemma substring_append_skip (u v : string) m :
  String.substring (String.length u) m (u +:+ v) = String.substring 0 m v.
Proof. induction u as [|c u IH]; [done|]. by rewrite append_cons. Qed.

Lemma substring_append_take (u v : string) :
  String.substring 0 (String.length u) (u +:+ v) = u.
Proof.
  induction u as [|c u IH]; [by destruct v|].
  rewrite append_cons. simpl. by rewrite IH.
Qed.

Lemma substring_full (s : string) :
  String.substring 0 (String.length s) s = s.
Proof. induction s as [|c s IH]; [done|]. simpl. by rewrite IH. Qed.

Lemma substring_split (s : string) n :
  n ≤ String.length s →
  s = String.substring 0 n s
      +:+ String.substring n (String.length s - n) s.
Proof.
  revert n. induction s as [|c s IH]; intros n Hn.
  - by destruct n.
  - destruct n as [|n].
    + rewrite Nat.sub_0_r, substring_full. reflexivity.
    + simpl in *. rewrite append_cons. f_equal. apply IH. lia.
Qed.

(** A URL ends in a slash exactly when [HasSuffix] says so, and
    [TrimSuffix] then removes that one slash. *)
Lemma HasSuffix_slash s :
  strings.HasSuffix s "/" = true ↔ ∃ u, s = u +:+ "/".
Proof.
  unfold strings.HasSuffix. rewrite andb_true_iff, !bool_decide_eq_true.
  split.
  - intros [Hlen Hsub]. simpl in *.
    exists (String.substring 0 (String.length s - 1) s).
    etrans; [apply (substring_split s (String.length s - 1)); lia|].
    f_equal. rewrite <-Hsub. f_equal. lia.
  - intros [u ->]. rewrite length_append. simpl. split; [lia|].
    replace (String.length u + 1 - 1) with (String.length u) by lia.
    by rewrite substring_append_skip.
Qed.

Lemma TrimSuffix_slash u : strings.TrimSuffix (u +:+ "/") "/" = u.
Proof.
  unfold strings.TrimSuffix.
  rewrite (proj2 (HasSuffix_slash (u +:+ "/"))) by eauto.
  rewrite length_append. simpl.
  replace (String.length u + 1 - 1) with (String.length u) by lia.
  apply substring_append_take.
Qed.

Lemma TrimSuffix_no_slash s :
  strings.HasSuffix s "/" = false → strings.TrimSuffix s "/" = s.
Proof. unfold strings.TrimSuffix. by intros ->. Qed.

(** The outcome of [Validate] when there is an address and no token. *)
Lemma Validate_without_token c :
  RancherURL c ≠ "" → Token c = "" →
  Validate c
  = let c' := set_RancherURL c (strings.TrimSuffix (RancherURL c) "/") in
    if bool_decide (AccessKey c = "") || bool_decide (SecretKey c = "")
    then (c', Some "either token or access_key/secret_key pair is required")
    else (c', None).
Proof.
  intros Hurl Htoken. unfold Validate.
  rewrite (bool_decide_eq_false_2 (RancherURL c = "")) by done.
  cbn [Token set_RancherURL AccessKey SecretKey].
  rewrite (bool_decide_eq_true_2 (Token c = "")) by done.
  rewrite (bool_decide_eq_false_2 (Token c ≠ "")) by (by intros []).
  cbn [andb].
  by destruct (bool_decide (AccessKey c = "") || bool_decide (SecretKey c = "")).
Qed.

Lemma colon_in_nonempty token :
  colon ∈ strings.bytes token → token ≠ "".
Proof. intros Hin ->. by apply elem_of_nil in Hin. Qed.

Lemma Validate_empty_url c :
  RancherURL c = "" → Validate c = (c, Some "rancher URL is required").
Proof. intros H. unfold Validate. by rewrite bool_decide_eq_true_2. Qed.

(** [Validate] accepts a configuration exactly when it has a server
    address and either a token holding a separator or, without any token,
    both an access key and a secret key. *)
Theorem Validate_accepts_iff (c : Config) :
  (Validate c).2 = None
  ↔ RancherURL c ≠ ""
    ∧ (colon ∈ strings.bytes (Token c)
       ∨ (Token c = "" ∧ AccessKey c ≠ "" ∧ SecretKey c ≠ "")).
Proof.
  destruct (decide (RancherURL c = "")) as [Hurl|Hurl].
  { rewrite Validate_empty_url by done. simpl. split; [done|tauto]. }
  destruct (decide (Token c = "")) as [Htok|Htok].
  - rewrite Validate_without_token by done. cbn zeta.
    destruct (decide (AccessKey c = "")) as [Ha|Ha];
      destruct (decide (SecretKey c = "")) as [Hs|Hs];
      repeat (first [rewrite (bool_decide_eq_true_2 _ Ha)
                    |rewrite (bool_decide_eq_false_2 _ Ha)
                    |rewrite (bool_decide_eq_true_2 _ Hs)
                    |rewrite (bool_decide_eq_false_2 _ Hs)]);
      simpl; (split; [try done|]).
    + intros [_ [Hin|(_ & ? & _)]]; [|done].
      by apply colon_in_nonempty in Hin.
    + intros [_ [Hin|(_ & ? & _)]]; [|done].
      by apply colon_in_nonempty in Hin.
    + intros [_ [Hin|(_ & _ & ?)]]; [|done].
      by apply colon_in_nonempty in Hin.
    + intros _. split; [done|]. by right.
    + done.
  - rewrite Validate_with_token by done. cbn zeta.
    destruct (strings.Cut (Token c) colon) as [[access secret]|] eqn:Hcut.
    + simpl. split; [|done]. intros _. split; [done|]. left.
      apply dec_stable. intros Hno. apply Cut_None in Hno. congruence.
    + simpl. split; [done|]. intros [_ [Hin|[? _]]]; [|done].
      apply Cut_None in Hcut. done.
Qed.

(** [Validate] only ever writes the address and the two keys: the token,
    the prefix, the output path, the TLS switch and the CA path are left
    as they were, and when it returns an error the two keys are as they
    were too. *)
Theorem Validate_untouched_fields (c : Config) :
  Token (Validate c).1 = Token c
  ∧ ClusterPrefix (Validate c).1 = ClusterPrefix c
  ∧ OutputPath (Validate c).1 = OutputPath c
  ∧ InsecureSkipTLSVerify (Validate c).1 = InsecureSkipTLSVerify c
  ∧ CACert (Validate c).1 = CACert c
  ∧ ((Validate c).2 ≠ None →
     AccessKey (Validate c).1 = AccessKey c
     ∧ SecretKey (Validate c).1 = SecretKey c).
Proof.
  destruct (decide (RancherURL c = "")) as [Hurl|Hurl].
  { by rewrite Validate_empty_url. }
  destruct (decide (Token c = "")) as [Htok|Htok].
  - rewrite Validate_without_token by done. cbn zeta.
    by destruct (bool_decide (AccessKey c = "") || bool_decide (SecretKey c = "")).
  - rewrite Validate_with_token by done. cbn zeta.
    by destruct (strings.Cut (Token c) colon) as [[access secret]|].
Qed.

Lemma Validate_RancherURL c :
  RancherURL (Validate c).1 = strings.TrimSuffix (RancherURL c) "/".
Proof.
  destruct (decide (RancherURL c = "")) as [Hurl|Hurl].
  { rewrite Validate_empty_url by done. simpl. by rewrite Hurl. }
  destruct (decide (Token c = "")) as [Htok|Htok].
  - rewrite Validate_without_token by done. cbn zeta.
    by destruct (bool_decide (AccessKey c = "") || bool_decide (SecretKey c = "")).
  - rewrite Validate_with_token by done. cbn zeta.
    by destruct (strings.Cut (Token c) colon) as [[access secret]|].
Qed.

(** [Validate] removes one trailing slash from the address and no more: an
    address ending in a slash loses exactly that slash (so one ending in
    two slashes still ends in one), and any other address is kept. *)
Theorem Validate_trims_one_slash (c : Config) :
  (∀ u, RancherURL c = u +:+ "/" → RancherURL (Validate c).1 = u)
  ∧ ((∀ u, RancherURL c ≠ u +:+ "/") →
     RancherURL (Validate c).1 = RancherURL c).
Proof.
  rewrite Validate_RancherURL. split.
  - intros u ->. apply TrimSuffix_slash.
  - intros Hno. apply TrimSuffix_no_slash.
    destruct (strings.HasSuffix (RancherURL c) "/") eqn:Hs; [|done].
    apply HasSuffix_slash in Hs as [u Hu]. by destruct (Hno u).
Qed.

(** A successful [Validate] leaves an empty address behind exactly when the
    address it was given is the single slash. *)
Theorem Validate_success_empty_url_iff (c : Config) :
  (Validate c).2 = None →
  (RancherURL (Validate c).1 = "" ↔ RancherURL c = "/").
Proof.
  intros Hok.
  assert (RancherURL c ≠ "") as Hurl.
  { intros Hempty. by rewrite Validate_empty_url in Hok. }
  rewrite Validate_RancherURL. split.
  - intros Htrim.
    destruct (strings.HasSuffix (RancherURL c) "/") eqn:Hs.
    + apply HasSuffix_slash in Hs as [u Hu].
      rewrite Hu, TrimSuffix_slash in Htrim. by rewrite Hu, Htrim.
    + by rewrite TrimSuffix_no_slash in Htrim.
  - by intros ->.
Qed.

(** A token holding a separator overrides whatever access key and secret
    key the configuration carries: the credentials after [Validate] are
    read off the token alone. *)
Theorem Validate_token_overrides_keys (c : Config) (access secret : string) :
  RancherURL c ≠ "" →
  colon ∈ strings.bytes (Token c) →
  GetBasicAuth (Validate (set_keys c access secret)).1
  = GetBasicAuth (Validate c).1
  ∧ (Validate (set_keys c access secret)).2 = None.
Proof.
  intros Hurl Hin. pose proof (colon_in_nonempty _ Hin) as Htok.
  rewrite !Validate_with_token by done. cbn zeta. simpl.
  destruct (strings.Cut (Token c) colon) as [[a s]|] eqn:Hcut; [done|].
  by apply Cut_None in Hcut.
Qed.

(** Validating again changes nothing once the address no longer ends in a
    slash: a configuration that came out of a successful [Validate] with a
    non-empty address without trailing slash is accepted again and left as
    it is. *)
Theorem Validate_idempotent (c c' : Config) :
  Validate c = (c', None) →
  RancherURL c' ≠ "" →
  strings.HasSuffix (RancherURL c') "/" = false →
  Validate c' = (c', None).
Proof.
  intros Hv Hurl' Hs.
  destruct (decide (RancherURL c = "")) as [Hurl|Hurl].
  { by rewrite Validate_empty_url in Hv. }
  destruct (decide (Token c = "")) as [Htok|Htok].
  - rewrite Validate_without_token in Hv by done. cbn zeta in Hv.
    destruct (decide (AccessKey c = "")) as [Ha|Ha].
    { by rewrite (bool_decide_eq_true_2 _ Ha) in Hv. }
    destruct (decide (SecretKey c = "")) as [Hsec|Hsec].
    { rewrite (bool_decide_eq_true_2 _ Hsec), orb_true_r in Hv. done. }
    rewrite (bool_decide_eq_false_2 _ Ha), (bool_decide_eq_false_2 _ Hsec)
      in Hv. simpl in Hv. injection Hv as <-.
    rewrite Validate_without_token by done. cbn zeta.
    cbn [set_RancherURL AccessKey SecretKey RancherURL] in *.
    rewrite (bool_decide_eq_false_2 _ Ha), (bool_decide_eq_false_2 _ Hsec).
    simpl. by rewrite (TrimSuffix_no_slash _ Hs).
  - rewrite Validate_with_token in Hv by done. cbn zeta in Hv.
    destruct (strings.Cut (Token c) colon) as [[a s]|] eqn:Hcut; [|done].
    injection Hv as <-.
    rewrite Validate_with_token by done. cbn zeta.
    cbn [set_keys set_RancherURL Token AccessKey SecretKey RancherURL] in *.
    rewrite Hcut. by rewrite (TrimSuffix_no_slash _ Hs).
Qed.
End Validate_more.

(** ** More on the identifier rewriter *)
Section ApplyPrefix_more.
Import api kubeconfig.

Lemma append_assoc (s1 s2 s3 : string) :
  (s1 +:+ s2) +:+ s3 = s1 +:+ s2 +:+ s3.
Proof.
  induction s1 as [|c s1 IH]; [done|]. by rewrite !append_cons, IH.
Qed.

Lemma append_empty_r (s : string) : s +:+ "" = s.
Proof. induction s as [|c s IH]; [done|]. by rewrite append_cons, IH. Qed.

Lemma append_empty_inv (s1 s2 : string) : s1 +:+ s2 = "" → s1 = "".
Proof. by destruct s1. Qed.

(** The document [ApplyPrefix] builds for a non-empty prefix. *)
Lemma ApplyPrefix_eq g config clusterName :
  prefix g ≠ "" →
  ApplyPrefix g config clusterName
  = {| Kind := Kind config;
       APIVersion := APIVersion config;
       Preferences_ := Preferences_ config;
       Clusters := kmap (String.app (prefix g)) (Clusters config);
       AuthInfos := kmap (String.app (prefix g)) (AuthInfos config);
       Contexts :=
         kmap (String.app (prefix g))
           (newContext g (Clusters config) clusterName <$> Contexts config);
       CurrentContext :=
         newCurrentContext g clusterName (CurrentContext config);
       Extensions := Extensions config |}.
Proof.
  intros Hp.
  rewrite <-(ApplyPrefix_Clusters g config clusterName Hp),
    <-(ApplyPrefix_AuthInfos g config clusterName Hp),
    <-(ApplyPrefix_Contexts g config clusterName Hp).
  unfold ApplyPrefix. by rewrite bool_decide_eq_false_2.
Qed.

Lemma newContext_eq g clusters clusterName ctx :
  newContext g clusters clusterName ctx
  = {| Context_Cluster :=
         if decide (is_Some (clusters !! Context_Cluster ctx))
         then prefix g +:+ Context_Cluster ctx
         else Context_Cluster ctx;
       Context_AuthInfo :=
         if decide (Context_AuthInfo ctx = "") then ""
         else prefix g +:+ Context_AuthInfo ctx;
       Namespace := Namespace ctx |}.
Proof.
  transitivity
    {| Context_Cluster :=
         Context_Cluster (newContext g clusters clusterName ctx);
       Context_AuthInfo :=
         Context_AuthInfo (newContext g clusters clusterName ctx);
       Namespace := Namespace ctx |}; [reflexivity|].
  by rewrite newContext_Cluster, newContext_AuthInfo.
Qed.

Lemma newCurrentContext_eq g clusterName current :
  newCurrentContext g clusterName current
  = if decide (current = "") then "" else prefix g +:+ current.
Proof.
  unfold newCurrentContext.
  case_bool_decide; case_decide; try done.
  case_bool_decide; congruence.
Qed.

Lemma ApplyPrefix_ignores_names g config clusterName1 clusterName2 :
  ApplyPrefix g config clusterName1 = ApplyPrefix g config clusterName2.
Proof.
  destruct (decide (prefix g = "")) as [Hp|Hp].
  { unfold ApplyPrefix. by rewrite !bool_decide_eq_true_2. }
  rewrite !ApplyPrefix_eq by done. f_equal.
  - f_equal. apply map_fmap_ext. intros i ctx _.
    by rewrite !newContext_eq.
  - by rewrite !newCurrentContext_eq.
Qed.

(** The cluster name handed to [ApplyPrefix] has no influence on the
    result: both branches of each renaming prepend the prefix to the
    original name. *)
Theorem ApplyPrefix_ignores_clusterName (g : Generator) (config : Config)
    (clusterName1 clusterName2 : string) :
  ApplyPrefix g config clusterName1 = ApplyPrefix g config clusterName2.
Proof. apply ApplyPrefix_ignores_names. Qed.

(** Every credential entry [m] of the input is found under
    [prefix + m] in the output, unchanged, and the output has no other
    credential entries. *)
Theorem ApplyPrefix_renames_AuthInfos (g : Generator) (config : Config)
    (clusterName : string) :
  (∀ m, AuthInfos (ApplyPrefix g config clusterName) !! (prefix g +:+ m)
        = AuthInfos config !! m)
  ∧ (∀ k, is_Some (AuthInfos (ApplyPrefix g config clusterName) !! k) →
          ∃ m, k = prefix g +:+ m ∧ is_Some (AuthInfos config !! m)).
Proof.
  destruct g as [p]. destruct (decide (p = "")) as [->|Hp].
  { rewrite ApplyPrefix_empty. simpl. split; [done|].
    intros k Hk. by exists k. }
  rewrite ApplyPrefix_AuthInfos by done. simpl. split.
  - intros m. apply (lookup_kmap (String.app p)).
  - intros k [a (m & -> & Hm)%lookup_kmap_Some]; [|apply _]. eauto.
Qed.

(** An empty current context stays empty and a non-empty one gets the
    prefix; a non-empty current context names a context of the output
    exactly when it named one of the input. *)
Theorem ApplyPrefix_CurrentContext (g : Generator) (config : Config)
    (clusterName : string) :
  CurrentContext (ApplyPrefix g config clusterName)
  = (if decide (CurrentContext config = "") then ""
     else prefix g +:+ CurrentContext config)
  ∧ (CurrentContext config ≠ "" →
     (is_Some (Contexts (ApplyPrefix g config clusterName)
                 !! CurrentContext (ApplyPrefix g config clusterName))
      ↔ is_Some (Contexts config !! CurrentContext config))).
Proof.
  destruct g as [p]. destruct (decide (p = "")) as [->|Hp].
  { rewrite ApplyPrefix_empty. simpl.
    split; [by case_decide|done]. }
  rewrite ApplyPrefix_eq by done. simpl.
  rewrite newCurrentContext_eq. simpl. split; [done|].
  intros Hcur. rewrite decide_False by done.
  rewrite (lookup_kmap (String.app p)), lookup_fmap.
  by rewrite fmap_is_Some.
Qed.

(** [ApplyPrefix] neither adds, drops nor merges entries, and it hands the
    document-level fields through. *)
Theorem ApplyPrefix_keeps_counts_and_metadata (g : Generator)
    (config : Config) (clusterName : string) :
  let r := ApplyPrefix g config clusterName in
  size (Clusters r) = size (Clusters config)
  ∧ size (AuthInfos r) = size (AuthInfos config)
  ∧ size (Contexts r) = size (Contexts config)
  ∧ Kind r = Kind config
  ∧ APIVersion r = APIVersion config
  ∧ Preferences_ r = Preferences_ config
  ∧ Extensions r = Extensions config.
Proof.
  intros r. subst r.
  destruct (ApplyPrefix_sizes g config clusterName) as (Hc & Hx & Ha).
  split_and!; [done..| | | |];
    (destruct (decide (prefix g = "")) as [Hp|Hp];
     [unfold ApplyPrefix; by rewrite bool_decide_eq_true_2
     |by rewrite ApplyPrefix_eq]).
Qed.

Lemma kmap_append_compose {A} (p1 p2 : string) (m : gmap string A) :
  kmap (String.app p2) (kmap (String.app p1) m : gmap string A)
  =@{gmap string A} kmap (String.app (p2 +:+ p1)) m.
Proof.
  apply map_eq. intros j. apply option_eq. intros x.
  rewrite !lookup_kmap_Some by apply _. split.
  - intros (i & -> & Hi). apply lookup_kmap_Some in Hi as (k & -> & Hk);
      [|apply _].
    exists k. by rewrite append_assoc.
  - intros (k & -> & Hk). exists (p1 +:+ k). rewrite append_assoc.
    split; [done|]. by rewrite (lookup_kmap (String.app p1)).
Qed.

Lemma lookup_kmap_append_empty {A} (p : string) (m : gmap string A) :
  p ≠ "" → (kmap (String.app p) m : gmap string A) !! "" = None.
Proof.
  intros Hp. apply eq_None_not_Some.
  intros [x (i & Hi & _)%lookup_kmap_Some]; [|apply _].
  symmetry in Hi. by apply append_empty_inv in Hi.
Qed.

(** Applying a prefix [p1] and then a prefix [p2] to a valid document is
    applying the prefix [p2 + p1] once. *)
Theorem ApplyPrefix_compose (p1 p2 : string) (config : Config)
    (clusterName1 clusterName2 clusterName : string) :
  valid config →
  ApplyPrefix (NewGenerator p2)
    (ApplyPrefix (NewGenerator p1) config clusterName1) clusterName2
  = ApplyPrefix (NewGenerator (p2 +:+ p1)) config clusterName.
Proof.
  intros Hvalid.
  destruct (decide (p1 = "")) as [->|Hp1].
  { rewrite ApplyPrefix_empty, append_empty_r.
    apply ApplyPrefix_ignores_names. }
  destruct (decide (p2 = "")) as [->|Hp2].
  { rewrite ApplyPrefix_empty.
    apply ApplyPrefix_ignores_names. }
  assert (p2 +:+ p1 ≠ "") as Hp by (by intros ?%append_empty_inv).
  rewrite !ApplyPrefix_eq by done. simpl. f_equal.
  - apply kmap_append_compose.
  - apply kmap_append_compose.
  - rewrite <-(kmap_fmap (String.app p1)), <-map_fmap_compose.
    rewrite kmap_append_compose. f_equal.
    apply map_fmap_ext. intros i ctx Hctx.
    destruct (Hvalid i ctx Hctx) as [Hcl _]. unfold resolves in Hcl.
    simpl. rewrite !newContext_eq. simpl. f_equal.
    + destruct (decide (is_Some (Clusters config !! Context_Cluster ctx)))
        as [Hin|Hout].
      * rewrite decide_True, append_assoc; [done|].
        by rewrite (lookup_kmap (String.app p1)).
      * destruct Hcl as [Hempty|?]; [|done]. rewrite Hempty.
        rewrite decide_False; [done|].
        rewrite lookup_kmap_append_empty by done. by intros [??].
    + destruct (decide (Context_AuthInfo ctx = "")) as [Ha|Ha].
      * by rewrite decide_True.
      * rewrite decide_False, append_assoc; [done|].
        by intros ?%append_empty_inv.
  - rewrite !newCurrentContext_eq. simpl.
    destruct (decide (CurrentContext config = "")) as [Hc|Hc].
    + by rewrite decide_True.
    + rewrite decide_False, append_assoc; [done|].
      by intros ?%append_empty_inv.
Qed.

(** Prefixing cannot separate two documents that share a name, nor make
    two documents share one: with the same generator, the prefixed
    documents are free of common names exactly when the originals are. *)
Theorem ApplyPrefix_disjointDocs_iff (g : Generator) (d1 d2 : Config)
    (n1 n2 : string) :
  disjointDocs (ApplyPrefix g d1 n1) (ApplyPrefix g d2 n2)
  ↔ disjointDocs d1 d2.
Proof.
  destruct (decide (prefix g = "")) as [Hp|Hp].
  { unfold ApplyPrefix. by rewrite !bool_decide_eq_true_2. }
  unfold disjointDocs.
  rewrite !ApplyPrefix_Clusters, !ApplyPrefix_AuthInfos,
    !ApplyPrefix_Contexts by done.
  rewrite !(map_disjoint_kmap (String.app (prefix g))).
  by rewrite map_disjoint_fmap.
Qed.
End ApplyPrefix_more.

(** ** More on the merger *)
Section merged_docs.
Import api kubeconfig.

Lemma foldl_mergeInto_valid docs m :
  valid m → Forall valid docs → valid (foldl mergeInto m docs).
Proof.
  intros Hm Hdocs. revert m Hm.
  induction Hdocs as [|d docs Hd _ IH]; intros m Hm; [done|].
  simpl. apply IH. by apply mergeInto_valid.
Qed.

Lemma foldl_found_is_Some {A} (sel : Config → gmap string A) k docs init :
  is_Some (foldl (λ found doc,
                    match sel doc !! k with
                    | Some v => Some v
                    | None => found
                    end) init docs)
  ↔ is_Some init ∨ Exists (λ doc, is_Some (sel doc !! k)) docs.
Proof.
  revert init. induction docs as [|d docs IH]; intros init; simpl.
  - rewrite Exists_nil. tauto.
  - rewrite IH, Exists_cons. destruct (sel d !! k) as [v|].
    + split; [|eauto]. intros _. right. left. eauto.
    + split; [tauto|]. intros [?|[[? [=]]|?]]; tauto.
Qed.

Lemma foldl_mergeInto_metadata docs m :
  Kind (foldl mergeInto m docs) = Kind m
  ∧ APIVersion (foldl mergeInto m docs) = APIVersion m
  ∧ Preferences_ (foldl mergeInto m docs) = Preferences_ m
  ∧ Extensions (foldl mergeInto m docs) = Extensions m.
Proof.
  revert m. induction docs as [|d docs IH]; intros m; [done|].
  simpl. destruct (IH (mergeInto m d)) as (-> & -> & -> & ->). done.
Qed.
End merged_docs.

Section MergeConfigs_more.
Import api kubeconfig.
Variable Load : string → result Config.
Variable g : Generator.


Lemma prefixedConfigs_valid order docs :
  Forall (λ entry, ∀ c, Load entry.2 = Ok c → valid c) order →
  prefixedConfigs Load g order = Ok docs →
  Forall valid docs.
Proof.
  intros Horder. revert docs.
  induction Horder as [|[n s] order Hs _ IH]; intros docs; simpl.
  - by intros [= <-].
  - unfold prefixedConfig, ParseKubeconfig. simpl in *.
    destruct (Load s) as [c|]; [|done].
    destruct (prefixedConfigs Load g order) as [ds|]; [|done].
    intros [= <-]. constructor; [|by apply IH].
    apply ApplyPrefix_valid. by apply Hs.
Qed.

Lemma MergeConfigs_valid order m :
  Forall (λ entry, ∀ c, Load entry.2 = Ok c → valid c) order →
  MergeConfigs Load g order = Ok m →
  valid m.
Proof.
  intros Horder. unfold MergeConfigs. rewrite mergeLoop_prefixedConfigs.
  destruct (prefixedConfigs Load g order) as [docs|] eqn:Hdocs; [|done].
  intros [= <-]. apply foldl_mergeInto_valid; [apply NewConfig_valid|].
  by eapply prefixedConfigs_valid.
Qed.

End MergeConfigs_more.

Section MergeConfigs_extras.
Import api kubeconfig.

(** Merging keeps references resolvable for any number of documents, also
    when names collide: when every document that decodes is valid, so is
    the merged document. *)
Theorem MergeConfigs_preserves_valid
    (Load : string → result Config) (g : Generator)
    (order : list (string * string)) (m : Config) :
  Forall (λ entry, ∀ c, Load entry.2 = Ok c → valid c) order →
  MergeConfigs Load g order = Ok m →
  valid m.
Proof. apply MergeConfigs_valid. Qed.

(** The merged document holds exactly the names of the prefixed input
    documents: a name is a key of a merged map exactly when some prefixed
    document has it in the corresponding map. *)
Theorem MergeConfigs_names
    (Load : string → result Config) (g : Generator)
    (order : list (string * string)) (docs : list Config) (m : Config) :
  prefixedConfigs Load g order = Ok docs →
  MergeConfigs Load g order = Ok m →
  ∀ k,
    (is_Some (Clusters m !! k)
     ↔ Exists (λ doc, is_Some (Clusters doc !! k)) docs)
    ∧ (is_Some (AuthInfos m !! k)
       ↔ Exists (λ doc, is_Some (AuthInfos doc !! k)) docs)
    ∧ (is_Some (Contexts m !! k)
       ↔ Exists (λ doc, is_Some (Contexts doc !! k)) docs).
Proof.
  intros Hdocs. unfold MergeConfigs.
  rewrite mergeLoop_prefixedConfigs, Hdocs. intros [= <-] k.
  destruct (foldl_mergeInto_lastWrite docs k) as (-> & -> & ->).
  unfold lastWrite. rewrite !foldl_found_is_Some.
  split_and!; (split; [intros [[? [=]]|?]; done|by right]).
Qed.

(** The document-level fields of the merged document are those of a fresh
    document, whatever the input documents carry: empty kind, empty API
    version, default preferences, no extensions. *)
Theorem MergeConfigs_drops_metadata
    (Load : string → result Config) (g : Generator)
    (order : list (string * string)) (m : Config) :
  MergeConfigs Load g order = Ok m →
  Kind m = "" ∧ APIVersion m = ""
  ∧ Preferences_ m = Preferences_ NewConfig ∧ Extensions m = ∅.
Proof.
  unfold MergeConfigs. rewrite mergeLoop_prefixedConfigs.
  destruct (prefixedConfigs Load g order) as [docs|]; [|done].
  intros [= <-]. apply (foldl_mergeInto_metadata docs NewConfig).
Qed.

(** Whether the merge succeeds does not depend on the iteration order: a
    run on a map succeeds exactly when every document of the map
    decodes. *)
Theorem MergeConfigs_succeeds_iff
    (Load : string → result Config) (g : Generator)
    (clusterKubeconfigs : gmap string string) (run : result Config) :
  MergeConfigs_returns Load g clusterKubeconfigs run →
  (is_Ok run
   ↔ ∀ n s, clusterKubeconfigs !! n = Some s → is_Ok (Load s)).
Proof.
  intros (order & Horder & <-). unfold iteration_of in Horder.
  assert (is_Ok (MergeConfigs Load g order)
          ↔ ¬ is_Err (MergeConfigs Load g order)) as ->.
  { destruct (MergeConfigs Load g order); simpl; tauto. }
  rewrite MergeConfigs_Err, <-Forall_Exists_neg, Forall_forall.
  split.
  - intros Hall n s Hns.
    assert ((n, s) ∈ order) as Hin
      by (rewrite Horder; by apply elem_of_map_to_list).
    specialize (Hall _ Hin). simpl in Hall.
    destruct (Load s); simpl in *; tauto.
  - intros Hall [n s] Hin. rewrite Horder in Hin.
    apply elem_of_map_to_list in Hin. specialize (Hall n s Hin).
    simpl. destruct (Load s); simpl in *; tauto.
Qed.

(** [Generate] hands a failure of the merge through unchanged, and what it
    returns on success is the encoding of a merged document that is valid
    whenever the decoded inputs are, and that has no current context. *)
Theorem Generate_output
    (Load : string → result Config) (Write : Config → result string)
    (g : Generator) (order : list (string * string)) :
  (∀ err, MergeConfigs Load g order = Err err →
          Generate Load Write g order = Err err)
  ∧ (∀ data, Generate Load Write g order = Ok data →
       ∃ m, MergeConfigs Load g order = Ok m
            ∧ Write m = Ok data
            ∧ CurrentContext m = ""
            ∧ (Forall (λ entry, ∀ c, Load entry.2 = Ok c → valid c) order →
               valid m)).
Proof.
  unfold Generate, Serialize. split.
  - by intros err ->.
  - intros data. destruct (MergeConfigs Load g order) as [m|] eqn:Hm; [|done].
    destruct (Write m) as [d|] eqn:Hw; [|done]. intros [= <-].
    exists m. split_and!; [done|done| |].
    + unfold MergeConfigs in Hm. rewrite mergeLoop_prefixedConfigs in Hm.
      destruct (prefixedConfigs Load g order) as [docs|]; [|done].
      injection Hm as <-. apply foldl_mergeInto_CurrentContext.
    + intros Hvalid. by eapply MergeConfigs_valid.
Qed.
End MergeConfigs_extras.

(** ** The Rancher client *)
Section rancher_client.
Import rancher.
Variable NewRequest_error : string → string → option string.
Variable Do : list Request → Request → result Response.
Variable decodeClusterCollection : string → result (list Cluster).
Variable decodeKubeconfigResponse : string → result string.
Variable c : Client.

#[local] Abbreviation doRequest := (doRequest NewRequest_error Do).
#[local] Abbreviation ListClusters :=
  (ListClusters NewRequest_error Do decodeClusterCollection).
#[local] Abbreviation GetClusterKubeconfig :=
  (GetClusterKubeconfig NewRequest_error Do decodeKubeconfigResponse).
#[local] Abbreviation collectKubeconfigs :=
  (collectKubeconfigs NewRequest_error Do decodeKubeconfigResponse).
#[local] Abbreviation GetAllKubeconfigs :=
  (GetAllKubeconfigs NewRequest_error Do decodeClusterCollection
     decodeKubeconfigResponse).
#[local] Abbreviation attempt := (attempt NewRequest_error c).
#[local] Abbreviation contacted := (contacted NewRequest_error c).

Lemma doRequest_world method url w :
  (doRequest c method url None w).2
  = {| sent := sent w ++ attempt method url; stderr := stderr w |}.
Proof.
  unfold rancher.doRequest, rancher.attempt. destruct w as [s e]. simpl.
  destruct (NewRequest_error method url).
  - simpl. by rewrite app_nil_r.
  - by destruct (Do s _).
Qed.

Lemma ListClusters_world w :
  (ListClusters c w).2
  = {| sent := sent w
               ++ attempt "GET" (config.RancherURL (config c) +:+ "/v3/clusters");
       stderr := stderr w |}.
Proof.
  unfold rancher.ListClusters. rewrite <-doRequest_world.
  destruct (doRequest c "GET" _ None w) as [[resp|err] w']; [|done].
  case_bool_decide; [done|].
  by destruct (decodeClusterCollection (ResponseBody resp)).
Qed.

Lemma GetClusterKubeconfig_world cluster w :
  (GetClusterKubeconfig c cluster w).2
  = {| sent := sent w ++ attempt "POST" (kubeconfigURL c cluster);
       stderr := stderr w |}.
Proof.
  unfold rancher.GetClusterKubeconfig. rewrite <-doRequest_world.
  destruct (doRequest c "POST" _ None w) as [[resp|err] w']; [|done].
  case_bool_decide; [done|].
  by destruct (decodeKubeconfigResponse (ResponseBody resp)).
Qed.

Lemma collectKubeconfigs_sent clusters kubeconfigs w :
  sent (collectKubeconfigs c clusters kubeconfigs w).2
  = sent w
    ++ ((λ cluster, authenticated c "POST" (kubeconfigURL c cluster) None)
          <$> filter contacted clusters).
Proof.
  revert kubeconfigs w.
  induction clusters as [|cl rest IH]; intros kubeconfigs w; simpl.
  { by rewrite app_nil_r. }
  case_bool_decide as Hstate.
  - rewrite IH, filter_cons_False; [done|]. by intros [? _].
  - pose proof (GetClusterKubeconfig_world cl w) as Hw.
    destruct (GetClusterKubeconfig c cl w) as [[kc|err] w']; simpl in Hw;
      rewrite IH; subst w'; simpl; rewrite <-(assoc_L (++)); f_equal;
      unfold rancher.attempt;
      (destruct (NewRequest_error "POST" (kubeconfigURL c cl)) eqn:Hreq;
       [rewrite filter_cons_False; [done|]; intros [_ ?]; congruence
       |by rewrite filter_cons_True]).
Qed.

Lemma collectKubeconfigs_keys clusters kubeconfigs w n :
  is_Some ((collectKubeconfigs c clusters kubeconfigs w).1 !! n) →
  is_Some (kubeconfigs !! n)
  ∨ ∃ cluster, cluster ∈ clusters ∧ Name cluster = n ∧ active cluster.
Proof.
  revert kubeconfigs w.
  induction clusters as [|cl rest IH]; intros kubeconfigs w; simpl.
  { by left. }
  assert (∀ k w',
            is_Some ((collectKubeconfigs c rest k w').1 !! n) →
            is_Some (k !! n)
            ∨ ∃ cluster, cluster ∈ cl :: rest ∧ Name cluster = n
                         ∧ active cluster) as IH'.
  { intros k w' [?|(x & ? & ? & ?)]%IH; [by left|right].
    exists x. split; [by apply elem_of_cons; right|done]. }
  case_bool_decide as Hstate; [apply IH'|].
  destruct (GetClusterKubeconfig c cl w) as [[kc|err] w']; [|apply IH'].
  intros [Hin|?]%IH'; [|by right].
  destruct (decide (Name cl = n)) as [Heq|Hne].
  - right. exists cl. split; [apply elem_of_cons; by left|done].
  - left. by rewrite lookup_insert_ne in Hin.
Qed.

Lemma collectKubeconfigs_accounting clusters kubeconfigs w :
  ∃ warnings,
    stderr (collectKubeconfigs c clusters kubeconfigs w).2
    = stderr w ++ warnings
    ∧ size (collectKubeconfigs c clusters kubeconfigs w).1 + length warnings
      ≤ size kubeconfigs + length (filter active clusters).
Proof.
  revert kubeconfigs w.
  induction clusters as [|cl rest IH]; intros kubeconfigs w; simpl.
  { exists []. rewrite app_nil_r. simpl. split; [done|lia]. }
  case_bool_decide as Hstate.
  - destruct (IH kubeconfigs w) as (ws & Hws & Hsize). exists ws.
    rewrite filter_cons_False by done. split; [done|lia].
  - rewrite filter_cons_True by done.
    pose proof (GetClusterKubeconfig_world cl w) as Hw.
    destruct (GetClusterKubeconfig c cl w) as [[kc|err] w']; simpl in Hw;
      subst w'.
    + destruct (IH (<[Name cl:=kc]> kubeconfigs)
                  {| sent := sent w ++ attempt "POST" (kubeconfigURL c cl);
                     stderr := stderr w |}) as (ws & Hws & Hsize).
      exists ws. split; [done|]. simpl.
      pose proof (map_size_insert (Name cl) kc kubeconfigs) as Hins.
      destruct (kubeconfigs !! Name cl); unfold id in Hins; simpl in *; lia.
    + match goal with
      | |- context [collectKubeconfigs c rest kubeconfigs ?w0] =>
          set (w1 := w0)
      end.
      destruct (IH kubeconfigs w1) as (ws & Hws & Hsize).
      eexists (_ :: ws). split.
      * rewrite Hws. subst w1. simpl. rewrite <-(assoc_L (++)). reflexivity.
      * simpl. lia.
Qed.

Lemma collectKubeconfigs_monotone clusters kubeconfigs w n :
  is_Some (kubeconfigs !! n) →
  is_Some ((collectKubeconfigs c clusters kubeconfigs w).1 !! n).
Proof.
  revert kubeconfigs w.
  induction clusters as [|cl rest IH]; intros kubeconfigs w Hn; simpl.
  { done. }
  case_bool_decide; [by apply IH|].
  destruct (GetClusterKubeconfig c cl w) as [[kc|err] w']; [|by apply IH].
  apply IH. rewrite lookup_insert_is_Some. destruct (decide (Name cl = n)); auto.
Qed.

Lemma ListClusters_Ok_request w clusters w1 :
  ListClusters c w = (Ok clusters, w1) →
  attempt "GET" (config.RancherURL (config c) +:+ "/v3/clusters")
  = [authenticated c "GET"
       (config.RancherURL (config c) +:+ "/v3/clusters") None].
Proof.
  unfold rancher.ListClusters, rancher.doRequest, rancher.attempt.
  by destruct (NewRequest_error "GET" _).
Qed.

Lemma authenticated_BasicAuth method url body :
  BasicAuth (authenticated c method url body)
  = config.GetBasicAuth (config c).
Proof. reflexivity. Qed.

(** [GetAllKubeconfigs] fails only when listing the clusters fails, and
    then with the same error and without contacting any cluster; a
    failure for a single cluster never makes it fail. *)
Theorem GetAllKubeconfigs_fails_only_with_listing (w : World)
    (err : string) (w' : World) :
  GetAllKubeconfigs c w = (Err err, w')
  ↔ ListClusters c w = (Err err, w').
Proof.
  unfold rancher.GetAllKubeconfigs.
  destruct (ListClusters c w) as [[clusters|e] w1].
  - destruct (collectKubeconfigs c clusters ∅ w1). split; intros [=].
  - split; by intros [= -> ->].
Qed.

(** Every key of the map [GetAllKubeconfigs] returns is the name of a
    listed cluster whose state is "active". *)
Theorem GetAllKubeconfigs_keys_active (w : World) (clusters : list Cluster)
    (w1 : World) (kubeconfigs : gmap string string) (w2 : World) :
  ListClusters c w = (Ok clusters, w1) →
  GetAllKubeconfigs c w = (Ok kubeconfigs, w2) →
  ∀ n, is_Some (kubeconfigs !! n) →
       ∃ cluster, cluster ∈ clusters ∧ Name cluster = n
                  ∧ State cluster = "active".
Proof.
  unfold rancher.GetAllKubeconfigs. intros ->.
  destruct (collectKubeconfigs c clusters ∅ w1) as [k w''] eqn:Hloop.
  intros [= <- <-] n Hn.
  replace k with (collectKubeconfigs c clusters ∅ w1).1 in Hn
    by (by rewrite Hloop).
  apply collectKubeconfigs_keys in Hn as [[? Hn]|Hn]; [|done].
  by rewrite lookup_empty in Hn.
Qed.

(** After a successful listing, the requests [GetAllKubeconfigs] hands to
    the HTTP client are the one GET for the listing followed by one POST
    for each active cluster, in listing order, to the URL of its
    kubeconfig action: clusters in any other state are never contacted.
    Each of these requests carries the credentials of the
    configuration. *)
Theorem GetAllKubeconfigs_requests (w : World) (clusters : list Cluster)
    (w1 : World) :
  ListClusters c w = (Ok clusters, w1) →
  ∃ requests,
    sent (GetAllKubeconfigs c w).2 = sent w ++ requests
    ∧ requests
      = authenticated c "GET"
          (config.RancherURL (config c) +:+ "/v3/clusters") None
        :: ((λ cluster,
               authenticated c "POST" (kubeconfigURL c cluster) None)
              <$> filter contacted clusters)
    ∧ Forall (λ req, BasicAuth req = config.GetBasicAuth (config c))
        requests.
Proof.
  intros Hlist. eexists. split_and!; [|reflexivity|].
  - unfold rancher.GetAllKubeconfigs.
    pose proof (ListClusters_world w) as Hw1.
    rewrite (ListClusters_Ok_request _ _ _ Hlist) in Hw1.
    rewrite Hlist in *. simpl in Hw1.
    pose proof (collectKubeconfigs_sent clusters ∅ w1) as Hsent.
    destruct (collectKubeconfigs c clusters ∅ w1) as [k w'']. simpl in *.
    rewrite Hsent, Hw1. simpl. by rewrite <-(assoc_L (++)).
  - constructor; [apply authenticated_BasicAuth|].
    apply Forall_fmap, Forall_forall. intros cl _.
    apply authenticated_BasicAuth.
Qed.

(** Every active cluster is accounted for at most once: the entries of
    the returned map and the warnings written to the standard error
    stream together do not outnumber the active clusters of the listing,
    and nothing else is written. *)
Theorem GetAllKubeconfigs_accounting (w : World) (clusters : list Cluster)
    (w1 : World) (kubeconfigs : gmap string string) (w2 : World) :
  ListClusters c w = (Ok clusters, w1) →
  GetAllKubeconfigs c w = (Ok kubeconfigs, w2) →
  ∃ warnings,
    stderr w2 = stderr w ++ warnings
    ∧ size kubeconfigs + length warnings ≤ length (filter active clusters).
Proof.
  unfold rancher.GetAllKubeconfigs. intros Hlist.
  pose proof (ListClusters_world w) as Hw1. rewrite Hlist in *.
  simpl in Hw1.
  destruct (collectKubeconfigs_accounting clusters ∅ w1)
    as (ws & Hws & Hsize).
  destruct (collectKubeconfigs c clusters ∅ w1) as [k w'']. simpl in *.
  intros [= <- <-]. exists ws. rewrite Hws, Hw1. simpl.
  rewrite map_size_empty in Hsize. split; [done|lia].
Qed.

(** When every kubeconfig request can be built, is answered with status
    200 and has a body that decodes, the returned map has an entry for
    every active cluster of the listing and no warning is written. *)
Theorem GetAllKubeconfigs_complete (w : World) (clusters : list Cluster)
    (w1 : World) (kubeconfigs : gmap string string) (w2 : World) :
  (∀ url, NewRequest_error "POST" url = None) →
  (∀ history req,
     Method req = "POST" →
     ∃ body kubeconfig,
       Do history req = Ok (mkResponse 200 body)
       ∧ decodeKubeconfigResponse body = Ok kubeconfig) →
  ListClusters c w = (Ok clusters, w1) →
  GetAllKubeconfigs c w = (Ok kubeconfigs, w2) →
  (∀ cluster, cluster ∈ clusters → State cluster = "active" →
              is_Some (kubeconfigs !! Name cluster))
  ∧ stderr w2 = stderr w.
Proof.
  intros Hbuild Hanswer Hlist. unfold rancher.GetAllKubeconfigs.
  pose proof (ListClusters_world w) as Hw1. rewrite Hlist in *.
  simpl in Hw1.
  assert (∀ cl w0, ∃ kc w0',
            GetClusterKubeconfig c cl w0 = (Ok kc, w0')
            ∧ stderr w0' = stderr w0) as Hget.
  { intros cl w0. unfold rancher.GetClusterKubeconfig, rancher.doRequest.
    rewrite Hbuild.
    destruct (Hanswer (sent w0)
                (authenticated c "POST" (kubeconfigURL c cl) None) eq_refl)
      as (body & kc & -> & Hdec).
    simpl. rewrite Hdec. eauto. }
  assert (∀ cls k w0,
            (∀ cl, cl ∈ cls → State cl = "active" →
                   is_Some ((collectKubeconfigs c cls k w0).1 !! Name cl))
            ∧ stderr (collectKubeconfigs c cls k w0).2 = stderr w0) as Hloop.
  { induction cls as [|cl rest IH]; intros k w0; simpl.
    { split; [|done]. by intros cl ?%elem_of_nil. }
    case_bool_decide as Hstate.
    - destruct (IH k w0) as [Hin Herr]. split; [|done].
      intros cl' [->|Hrest]%elem_of_cons Hact; [done|by apply Hin].
    - destruct (Hget cl w0) as (kc & w0' & -> & Herr0).
      destruct (IH (<[Name cl:=kc]> k) w0') as [Hin Herr].
      split; [|by rewrite Herr].
      intros cl' [->|Hrest]%elem_of_cons Hact; [|by apply Hin].
      apply collectKubeconfigs_monotone. by rewrite lookup_insert_eq. }
  destruct (Hloop clusters ∅ w1) as [Hin Herr].
  destruct (collectKubeconfigs c clusters ∅ w1) as [k w'']. simpl in *.
  intros [= <- <-]. split; [done|]. by rewrite Herr, Hw1.
Qed.
End rancher_client.

(** ** The properties above at the sample inputs *)
Section sample_runs.
Import api kubeconfig examples samples.

Lemma Validate_success_empty_url_iff_witness :
  (config.Validate slashOnly).2 = None
  ∧ (config.RancherURL (config.Validate slashOnly).1 = ""
     ↔ config.RancherURL slashOnly = "/").
Proof.
  assert ((config.Validate slashOnly).2 = None) as Hok by reflexivity.
  split; [exact Hok|].
  exact (Validate_success_empty_url_iff slashOnly Hok).
Defined.

Lemma Validate_token_overrides_keys_witness :
  config.RancherURL (withToken "a:b:c") ≠ ""
  ∧ config.colon ∈ strings.bytes (config.Token (withToken "a:b:c"))
  ∧ config.GetBasicAuth
      (config.Validate (config.set_keys (withToken "a:b:c") "x" "y")).1
    = ("a", "b:c").
Proof.
  assert (config.RancherURL (withToken "a:b:c") ≠ "") as Hurl by done.
  assert (config.colon ∈ strings.bytes (config.Token (withToken "a:b:c")))
    as Hin.
  { simpl. apply elem_of_cons; right. apply elem_of_cons; by left. }
  split_and!; [exact Hurl|exact Hin|].
  destruct (Validate_token_overrides_keys (withToken "a:b:c") "x" "y"
              Hurl Hin) as [-> _].
  reflexivity.
Defined.

Lemma Validate_idempotent_witness :
  config.Validate (withToken "a:b:c")
    = ((config.Validate (withToken "a:b:c")).1, None)
  ∧ config.RancherURL (config.Validate (withToken "a:b:c")).1
    = "https://rancher.example.com"
  ∧ config.Validate (config.Validate (withToken "a:b:c")).1
    = ((config.Validate (withToken "a:b:c")).1, None).
Proof.
  assert (config.Validate (withToken "a:b:c")
          = ((config.Validate (withToken "a:b:c")).1, None)) as Hv
    by reflexivity.
  split_and!; [exact Hv|reflexivity|].
  apply (Validate_idempotent (withToken "a:b:c") _ Hv); [done|reflexivity].
Defined.

Lemma ApplyPrefix_compose_witness :
  valid docC1
  ∧ ApplyPrefix (NewGenerator "eu-")
      (ApplyPrefix (NewGenerator "prod-") docC1 "c1") "c1"
    = ApplyPrefix (NewGenerator "eu-prod-") docC1 "c1".
Proof.
  assert (valid docC1) as Hv
    by (apply (bool_decide_unpack _); by vm_compute).
  split; [exact Hv|].
  exact (ApplyPrefix_compose "prod-" "eu-" docC1 "c1" "c1" "c1" Hv).
Defined.

Lemma sample_documents_valid order :
  Forall (λ entry : string * string, ∀ c, load entry.2 = Ok c → valid c)
    order.
Proof.
  assert (valid docC1) as H1
    by (apply (bool_decide_unpack _); by vm_compute).
  assert (valid docA) as HA
    by (apply (bool_decide_unpack _); by vm_compute).
  assert (valid docB) as HB
    by (apply (bool_decide_unpack _); by vm_compute).
  apply Forall_forall. intros [n s] _ c. unfold load. simpl.
  repeat case_bool_decide; by intros [= <-].
Qed.

Lemma MergeConfigs_preserves_valid_witness :
  ∃ m, MergeConfigs load noPrefix [("a", "text of a"); ("b", "text of b")]
         = Ok m
       ∧ valid m.
Proof.
  eexists. split; [vm_compute; reflexivity|].
  apply (MergeConfigs_preserves_valid load noPrefix
           [("a", "text of a"); ("b", "text of b")]).
  - apply sample_documents_valid.
  - vm_compute. reflexivity.
Defined.

Lemma MergeConfigs_names_witness :
  prefixedConfigs load prod [("a", "text of a"); ("c1", "text of c1")]
    = Ok [ApplyPrefix prod docA "a"; ApplyPrefix prod docC1 "c1"]
  ∧ ∃ m, MergeConfigs load prod [("a", "text of a"); ("c1", "text of c1")]
           = Ok m
         ∧ is_Some (Clusters m !! "prod-c1")
         ∧ is_Some (AuthInfos m !! "prod-default").
Proof.
  assert (prefixedConfigs load prod
            [("a", "text of a"); ("c1", "text of c1")]
          = Ok [ApplyPrefix prod docA "a"; ApplyPrefix prod docC1 "c1"])
    as Hdocs by (vm_compute; reflexivity).
  split; [exact Hdocs|].
  assert (∃ m, MergeConfigs load prod
                 [("a", "text of a"); ("c1", "text of c1")] = Ok m)
    as [m Hm] by (eexists; vm_compute; reflexivity).
  exists m. split; [exact Hm|].
  pose proof (MergeConfigs_names load prod _ _ m Hdocs Hm) as Hnames.
  split.
  - apply (Hnames "prod-c1"). apply Exists_cons; right.
    apply Exists_cons; left. vm_compute. eexists. reflexivity.
  - apply (Hnames "prod-default"). apply Exists_cons; left.
    vm_compute. eexists. reflexivity.
Defined.

Lemma MergeConfigs_drops_metadata_witness :
  Kind docC1 = "Config"
  ∧ ∃ m, MergeConfigs load prod [("c1", "text of c1")] = Ok m
         ∧ Kind m = "" ∧ APIVersion m = "".
Proof.
  split; [reflexivity|]. eexists. split; [vm_compute; reflexivity|].
  destruct (MergeConfigs_drops_metadata load prod [("c1", "text of c1")] _
              ltac:(vm_compute; reflexivity)) as (Hk & Hv & _).
  split; [exact Hk|exact Hv].
Defined.

Lemma MergeConfigs_succeeds_iff_witness :
  MergeConfigs_returns load prod twoDistinct
    (MergeConfigs load prod [("a", "text of a"); ("c1", "text of c1")])
  ∧ is_Ok (MergeConfigs load prod
             [("a", "text of a"); ("c1", "text of c1")]).
Proof.
  destruct iteration_of_twoDistinct as [H1 _].
  assert (MergeConfigs_returns load prod twoDistinct
            (MergeConfigs load prod
               [("a", "text of a"); ("c1", "text of c1")])) as Hrun
    by (eexists; split; [exact H1|reflexivity]).
  split; [exact Hrun|].
  apply (MergeConfigs_succeeds_iff load prod twoDistinct _ Hrun).
  intros n s [[-> ->]|[-> ->]]%twoDistinct_lookup; exact I.
Defined.

Lemma sample_listing :
  rancher.ListClusters noError server decodeListing client quiet
  = (Ok listing,
     (rancher.ListClusters noError server decodeListing client quiet).2).
Proof. vm_compute. reflexivity. Qed.

Lemma sample_collection :
  ∃ w2,
    rancher.GetAllKubeconfigs noError server decodeListing decodeKubeconfig
      client quiet
    = (Ok {[ "c1" := "text of c1" ]}, w2)
    ∧ rancher.stderr w2
      = ["Warning: failed to get kubeconfig for cluster c3: "
         +:+ "request failed: connection refused" +:+ rancher.newline].
Proof. eexists. split; vm_compute; reflexivity. Qed.

Lemma GetAllKubeconfigs_keys_active_witness :
  is_Some (({[ "c1" := "text of c1" ]} : gmap string string) !! "c1")
  ∧ ∃ cluster, cluster ∈ listing ∧ rancher.Name cluster = "c1"
               ∧ rancher.State cluster = "active".
Proof.
  destruct sample_collection as (w2 & Hall & _).
  assert (is_Some (({[ "c1" := "text of c1" ]} : gmap string string)
                     !! "c1")) as Hin by (by rewrite lookup_singleton_eq).
  split; [exact Hin|].
  exact (GetAllKubeconfigs_keys_active noError server decodeListing
           decodeKubeconfig client quiet listing _ _ w2
           sample_listing Hall "c1" Hin).
Defined.

Lemma GetAllKubeconfigs_requests_witness :
  ∃ requests,
    rancher.sent
      (rancher.GetAllKubeconfigs noError server decodeListing
         decodeKubeconfig client quiet).2
    = rancher.sent quiet ++ requests
    ∧ rancher.URL <$> requests
      = ["https://rancher.example.com/v3/clusters";
         "https://rancher.example.com/k/c-1";
         "https://rancher.example.com/v3/clusters/c-3?action=generateKubeconfig"].
Proof.
  destruct (GetAllKubeconfigs_requests noError server decodeListing
              decodeKubeconfig client quiet listing _ sample_listing)
    as (requests & Hsent & Heq & _).
  exists requests. split; [exact Hsent|].
  rewrite Heq. vm_compute. reflexivity.
Defined.

Lemma GetAllKubeconfigs_accounting_witness :
  ∃ warnings : list string,
    length warnings = 1
    ∧ size ({[ "c1" := "text of c1" ]} : gmap string string)
      + length warnings
      ≤ length (filter rancher.active listing).
Proof.
  destruct sample_collection as (w2 & Hall & Herr).
  destruct (GetAllKubeconfigs_accounting noError server decodeListing
              decodeKubeconfig client quiet listing _ _ w2
              sample_listing Hall) as (warnings & Hws & Hsize).
  exists warnings. split; [|exact Hsize].
  rewrite Herr in Hws. simpl in Hws. by rewrite <-Hws.
Defined.

Lemma helpful_listing :
  rancher.ListClusters noError helpfulServer decodeListing client quiet
  = (Ok listing,
     (rancher.ListClusters noError helpfulServer decodeListing client
        quiet).2).
Proof. vm_compute. reflexivity. Qed.

Lemma GetAllKubeconfigs_complete_witness :
  ∃ kubeconfigs w2,
    rancher.GetAllKubeconfigs noError helpfulServer decodeListing
      decodeKubeconfig client quiet
    = (Ok kubeconfigs, w2)
    ∧ is_Some (kubeconfigs !! "c1") ∧ is_Some (kubeconfigs !! "c3")
    ∧ rancher.stderr w2 = [].
Proof.
  assert (∃ kubeconfigs w2,
            rancher.GetAllKubeconfigs noError helpfulServer decodeListing
              decodeKubeconfig client quiet
            = (Ok kubeconfigs, w2)) as (kubeconfigs & w2 & Hall)
    by (eexists _, _; vm_compute; reflexivity).
  exists kubeconfigs, w2. split; [exact Hall|].
  destruct (GetAllKubeconfigs_complete noError helpfulServer decodeListing
              decodeKubeconfig client quiet listing
              (rancher.ListClusters noError helpfulServer decodeListing
                 client quiet).2 kubeconfigs w2)
    as [Hin Herr].
  - done.
  - intros history req Hpost. exists "kubeconfig of c1", "text of c1".
    unfold helpfulServer. rewrite Hpost. split; reflexivity.
  - exact helpful_listing.
  - exact Hall.
  - split_and!.
    + apply (Hin c1); [|reflexivity]. apply elem_of_cons; by left.
    + apply (Hin c3); [|reflexivity].
      apply elem_of_cons; right. apply elem_of_cons; right.
      apply elem_of_cons; by left.
    + exact Herr.
Defined.
End sample_runs.
